(** * ALICE Kinematics Cloud: a shallow embedding of the frontend client,
      the kinematics store, the console's request builders, the domain
      schema and the engine contract, with the properties its
      specification states about them. *)

From Stdlib Require Import ZArith QArith Qpower Qabs Lia Lqa Ascii.
From stdpp Require Import base option list strings gmap pretty.

Close Scope Q_scope.
Local Open Scope string_scope.
Local Open Scope nat_scope.

(** ** Promises

    An [async] function either resolves with a value or rejects with an
    error.  [await] is the bind of this monad. *)

Inductive JsError : Type :=
| Error (message : string)          (* new Error(message) *)
| TypeError (message : string)      (* fetch: network failure *)
| SyntaxError (message : string).   (* Response.json(): body is not JSON *)

Inductive Promise (A : Type) : Type :=
| Resolved (a : A)
| Rejected (e : JsError).
Arguments Resolved {A} a.
Arguments Rejected {A} e.

Definition await {A B : Type} (p : Promise A) (k : A -> Promise B) : Promise B :=
  match p with
  | Resolved a => k a
  | Rejected e => Rejected e
  end.

Notation "'let/await' x := p 'in' k" := (await p (fun x => k))
  (at level 10, x name, p at level 100, k at level 200, only parsing).

(** ** src/unnamed/part_000: the kinematics store (zustand) *)

Module Store.
Section WithResult.

(** [Record<string, unknown>]: the payload of a result is opaque to the store. *)
Context {V : Type}.

(** The data fields of [KinematicsState]; the four actions are closures over
    [set] and are modelled as the functions below. *)
Record KinematicsState : Type := mkState {
  chain : string;
  result : option V;          (* [null] is [None] *)
  loading : bool;
}.

(** The argument of zustand's [set]: an object holding some of the fields. *)
Record PartialState : Type := mkPartial {
  p_chain : option string;
  p_result : option (option V);
  p_loading : option bool;
}.

(** [set(partial)] replaces the state by [Object.assign({}, state, partial)]:
    fields present in [partial] win, the others are kept. *)
Definition set (p : PartialState) (s : KinematicsState) : KinematicsState :=
  {| chain := default (chain s) (p_chain p);
     result := default (result s) (p_result p);
     loading := default (loading s) (p_loading p) |}.

(** The object returned by the [create] callback. *)
Definition initial : KinematicsState :=
  {| chain := "human_arm"; result := None; loading := false |}.

Definition setChain (v : string) : KinematicsState -> KinematicsState :=
  set {| p_chain := Some v; p_result := None; p_loading := None |}.

Definition setResult (v : option V) : KinematicsState -> KinematicsState :=
  set {| p_chain := None; p_result := Some v; p_loading := None |}.

Definition setLoading (v : bool) : KinematicsState -> KinematicsState :=
  set {| p_chain := None; p_result := None; p_loading := Some v |}.

Definition reset : KinematicsState -> KinematicsState :=
  set {| p_chain := Some "human_arm"; p_result := Some None; p_loading := Some false |}.

(** A call made by a component on the store. *)
Inductive Action : Type :=
| SetChain (v : string)
| SetResult (v : option V)
| SetLoading (v : bool)
| Reset.

Definition dispatch (s : KinematicsState) (a : Action) : KinematicsState :=
  match a with
  | SetChain v => setChain v s
  | SetResult v => setResult v s
  | SetLoading v => setLoading v s
  | Reset => reset s
  end.

(** The state after a sequence of calls, oldest first. *)
Definition run (acts : list Action) (s : KinematicsState) : KinematicsState :=
  foldl dispatch s acts.

(** The object each action passes to [set]. *)
Definition partial_of (a : Action) : PartialState :=
  match a with
  | SetChain v => {| p_chain := Some v; p_result := None; p_loading := None |}
  | SetResult v => {| p_chain := None; p_result := Some v; p_loading := None |}
  | SetLoading v => {| p_chain := None; p_result := None; p_loading := Some v |}
  | Reset => {| p_chain := Some "human_arm"; p_result := Some None; p_loading := Some false |}
  end.

End WithResult.
Arguments KinematicsState V : clear implicits.
Arguments PartialState V : clear implicits.
Arguments Action V : clear implicits.
End Store.

(** ** src/frontend/lib/api/client.ts: the API client *)

Module Client.

(** [process.env.NEXT_PUBLIC_API_URL || 'http://localhost:8080']: an unset or
    empty variable is falsy. *)
Definition API_URL (env : option string) : string :=
  match env with
  | Some s => if decide (s = "") then "http://localhost:8080" else s
  | None => "http://localhost:8080"
  end.

(** The part of [RequestInit] the client uses.  A JS object used as a map is
    a [gmap]; an absent key is [undefined]. *)
Record RequestInit : Type := mkInit {
  method : option string;
  body : option string;
  headers : gmap string string;
}.

(** What [fetch] resolves with. *)
Record Response : Type := mkResponse {
  status : N;
  text : string;     (* the raw body *)
}.

(** [Response.ok]: the status is in the range 200-299. *)
Definition ok (res : Response) : bool :=
  bool_decide (200 ≤ status res ∧ status res ≤ 299)%N.

(** [fetch] sends [GET] when [init.method] is undefined. *)
Definition http_method (init : RequestInit) : string :=
  default "GET" (method init).

(** [{ ...options, headers: { 'Content-Type': 'application/json', ...options?.headers } }]:
    in an object spread the later source wins, so the caller's headers
    override the default one ([∪] on [gmap] is left-biased). *)
Definition request_init (options : option RequestInit) : RequestInit :=
  {| method := options ≫= method;
     body := options ≫= body;
     headers := from_option headers ∅ options ∪ {[ "Content-Type" := "application/json" ]} |}.

Section WithNetwork.

(** The environment of the module: the configured base URL, the network, and
    the JSON parser and printer of the runtime over some type of JSON values.
    The parser throws a [SyntaxError] on a text that is not JSON; its message
    is the runtime's own and depends on the text. *)
Context {Json : Type}.
Variable env_API_URL : option string.
Variable fetch : string -> RequestInit -> Promise Response.
Variable JSON_parse : string -> option Json.
Variable syntax_error_message : string -> string.
Variable JSON_stringify : Json -> string.

(** [res.json()] *)
Definition json (res : Response) : Promise Json :=
  match JSON_parse (text res) with
  | Some v => Resolved v
  | None => Rejected (SyntaxError (syntax_error_message (text res)))
  end.

(** What [request] does once [fetch] has resolved with [res]. *)
Definition on_response (res : Response) : Promise Json :=
  if negb (ok res) then Rejected (Error ("API error: " ++ pretty (status res)))
  else json res.

Definition request (path : string) (options : option RequestInit) : Promise Json :=
  let/await res := fetch (API_URL env_API_URL ++ path) (request_init options) in
  on_response res.

(** The operations of the exported [api] object, with their argument. *)
Inductive Operation : Type :=
| health
| solveIk (b : Json)
| solveFk (b : Json)
| compressIntent (b : Json)
| optimizeTrajectory (b : Json)
| chains
| stats.

Definition post (b : Json) : option RequestInit :=
  Some {| method := Some "POST"; body := Some (JSON_stringify b); headers := ∅ |}.

(** The two arguments each operation passes to [request]. *)
Definition request_args (op : Operation) : string * option RequestInit :=
  match op with
  | health => ("/health", None)
  | solveIk b => ("/api/v1/kinematics/solve-ik", post b)
  | solveFk b => ("/api/v1/kinematics/solve-fk", post b)
  | compressIntent b => ("/api/v1/kinematics/compress-intent", post b)
  | optimizeTrajectory b => ("/api/v1/kinematics/optimize-trajectory", post b)
  | chains => ("/api/v1/kinematics/chains", None)
  | stats => ("/api/v1/kinematics/stats", None)
  end.

Definition api (op : Operation) : Promise Json :=
  request (request_args op).1 (request_args op).2.

(** The request line an operation puts on the wire: the method [fetch] uses
    and the path appended to the base URL. *)
Definition request_line (op : Operation) : string * string :=
  (http_method (request_init (request_args op).2), (request_args op).1).

End WithNetwork.
Arguments Operation Json : clear implicits.

(** The endpoint table of the specification (section 6), row by row. *)
Definition endpoint_table : list (string * string) :=
  [ ("POST", "/api/v1/kinematics/solve-ik");
    ("POST", "/api/v1/kinematics/solve-fk");
    ("POST", "/api/v1/kinematics/compress-intent");
    ("POST", "/api/v1/kinematics/optimize-trajectory");
    ("GET", "/api/v1/kinematics/chains");
    ("GET", "/api/v1/kinematics/stats");
    ("GET", "/health") ].

(** The row of the table that describes an operation. *)
Definition table_row {Json} (op : Operation Json) : nat :=
  match op with
  | solveIk _ => 0
  | solveFk _ => 1
  | compressIntent _ => 2
  | optimizeTrajectory _ => 3
  | chains => 4
  | stats => 5
  | health => 6
  end.

End Client.

(** ** src/frontend/app/dashboard/console/page.tsx: the console's requests *)

Module Console.

(** One element of [samples]. *)
Record Sample (float : Type) : Type := mkSample {
  timestamp_ms : Z;
  position : list float;
}.
Arguments mkSample {float} _ _.
Arguments timestamp_ms {float} _.
Arguments position {float} _.

(** The body posted to [compress-intent]. *)
Record CompressIntentBody (float : Type) : Type := mkBody {
  samples : list (Sample float);
  sample_rate_hz : Q;
}.
Arguments mkBody {float} _ _.
Arguments samples {float} _.
Arguments sample_rate_hz {float} _.

Section Generator.

(** The double-precision numbers of the runtime are kept abstract: the page
    only builds positions with them and never inspects the result. *)
Context {float : Type}.
Variable lit : Q -> float.                       (* a numeric literal *)
Variable of_index : nat -> float.                (* the index [i] as a number *)
Variable mul : float -> float -> float.
Variables Math_sin Math_cos : float -> float.

(** The callback of [Array.from]: [(_, i) => ({ timestamp_ms: i * 10, position: [...] })].
    The index is an integer below 100, so [i * 10] is exact. *)
Definition sample_at (i : nat) : Sample float :=
  {| timestamp_ms := Z.of_nat i * 10;
     position := [ mul (Math_sin (mul (of_index i) (lit (1 # 10)))) (lit (5 # 10));
                   mul (Math_cos (mul (of_index i) (lit (1 # 10)))) (lit (3 # 10));
                   mul (of_index i) (lit (5 # 1000)) ] |}.

(** [Array.from({ length: n }, f)] is [f] mapped over the indices [0 .. n-1]. *)
Definition Array_from {A} (n : nat) (f : nat -> A) : list A := f <$> seq 0 n.

(** The body built by the intent tab's [onClick]. *)
Definition intent_body : CompressIntentBody float :=
  {| samples := Array_from 100 sample_at; sample_rate_hz := 100 |}.

(** The path it is posted to. *)
Definition intent_path : string := "/api/v1/kinematics/compress-intent".

End Generator.

(** The outcome of validating a request. *)
Inductive Decoded : Type :=
| Accept
| Reject (error : string).

(** Section 3: the timestamps of a sample stream must be non-decreasing. *)
Fixpoint non_decreasing (ts : list Z) : bool :=
  match ts with
  | t1 :: ((t2 :: _) as rest) => (t1 <=? t2)%Z && non_decreasing rest
  | _ => true
  end.

(** Modelled from the spec: the engine's decoder of a compress-intent request
    is not part of the sources; section 4.3 rejects empty samples,
    non-monotonic timestamps and [sample_rate_hz <= 0], and section 5 rejects
    more than 1_000_000 samples at decode time. *)
Definition validate {float} (b : CompressIntentBody float) : Decoded :=
  match samples b with
  | [] => Reject "empty samples"
  | _ :: _ =>
      if (1000000 <? Z.of_nat (length (samples b)))%Z then Reject "too many samples"
      else if negb (non_decreasing (timestamp_ms <$> samples b))
      then Reject "non-monotonic timestamps"
      else if Qle_bool (sample_rate_hz b) 0 then Reject "sample_rate_hz must be positive"
      else Accept
  end.

(** Strictly increasing timestamps, as a property of positions in the list. *)
Definition strictly_increasing (ts : list Z) : Prop :=
  ∀ i j (a b : Z), ts !! i = Some a → ts !! j = Some b → (i < j)%nat → (a < b)%Z.

End Console.

(** ** src/frontend/app/dashboard/console/page.tsx (landing page) and
       src/README.md: the chains shown to the user *)

Module Presets.

Inductive JointType : Type := revolute | prismatic.

(** A row of the README's chain table. *)
Record ReadmeRow : Type := mkRow {
  row_id : string;
  row_dof : nat;
  row_type : string;
  row_description : string;
}.

Definition readme_chain_table : list ReadmeRow :=
  [ mkRow "human_arm" 7 "revolute" "Shoulder(3) + elbow(1) + wrist(3)";
    mkRow "human_leg" 6 "revolute" "Hip(3) + knee(1) + ankle(2)";
    mkRow "robotic_arm_6dof" 6 "revolute" "Standard industrial manipulator";
    mkRow "delta_robot" 3 "prismatic" "High-speed pick-and-place";
    mkRow "scara" 4 "revolute+prismatic" "Selective compliance assembly" ].

(** The [chains] constant of the landing page. *)
Definition home_chains : list string :=
  [ "Human Arm (7-DOF)"; "Human Leg (6-DOF)"; "Robotic Arm (6-DOF)";
    "Delta Robot (3-DOF)"; "SCARA (4-DOF)" ].

(** Modelled from the spec: section 3 gives a preset the fields [id], [name],
    [dof], [joint_type_summary], [description] and [joints]; of a joint only
    the type is given. *)
Record ChainPreset : Type := mkPreset {
  id : string;
  name : string;
  dof : nat;
  joint_type_summary : string;
  description : string;
  joints : list JointType;
}.

(** Modelled from the spec: the engine's preset registry is not part of the
    sources.  Section 4.5 lists the five chains in declaration order, with
    their DOF and joint types; the display names and descriptions are those
    of the landing page and the README. *)
Definition registry : list ChainPreset :=
  [ mkPreset "human_arm" "Human Arm" 7 "revolute"
      "Shoulder(3) + elbow(1) + wrist(3)" (replicate 7 revolute);
    mkPreset "human_leg" "Human Leg" 6 "revolute"
      "Hip(3) + knee(1) + ankle(2)" (replicate 6 revolute);
    mkPreset "robotic_arm_6dof" "Robotic Arm" 6 "revolute"
      "Standard industrial manipulator" (replicate 6 revolute);
    mkPreset "delta_robot" "Delta Robot" 3 "prismatic"
      "High-speed pick-and-place" (replicate 3 prismatic);
    mkPreset "scara" "SCARA" 4 "revolute+prismatic"
      "Selective compliance assembly" (replicate 3 revolute ++ [prismatic]) ].

(** Modelled from the spec: [GET chains] returns the table in declaration
    order (section 4.5); the registry is read-only, so the handler has no
    other input. *)
Definition get_chains : list ChainPreset := registry.

(** The label the landing page shows for a preset. *)
Definition home_label (p : ChainPreset) : string :=
  name p ++ " (" ++ pretty (dof p) ++ "-DOF)".

End Presets.

(** ** src/database/migrations/006_domain.sql: the domain tables *)

Module Schema.

Inductive SqlType : Type :=
| uuid | text | integer | jsonb | double_precision | timestamptz.

(** The values of [uuid], [jsonb], [double precision] and [timestamptz] are
    opaque to the schema: no constraint of the migration looks into them.
    They are taken as PostgreSQL holds them, after its input functions have
    accepted a literal and put it in the type's stored form; a text the type
    rejects is no value.  [empty_array] is the value of ['[]'] as [jsonb];
    keys of type [uuid] are compared. *)
Class Domains : Type := mkDomains {
  uuid_value : Type;
  jsonb_value : Type;
  float8_value : Type;
  timestamptz_value : Type;
  uuid_eq_dec :: EqDecision uuid_value;
  empty_array : jsonb_value;
}.

Section WithDomains.
Context {D : Domains}.

Inductive SqlValue : Type :=
| NULL
| VUuid (u : uuid_value)
| VText (s : string)
| VInteger (n : Z)
| VJsonb (j : jsonb_value)
| VDouble (x : float8_value)
| VTimestamptz (t : timestamptz_value).

Inductive DefaultExpr : Type :=
| gen_random_uuid
| now
| literal (v : SqlValue).

(** [references t(c) on delete cascade] *)
Record Reference : Type := mkRef {
  ref_table : string;
  ref_column : string;
  on_delete_cascade : bool;
}.

Record Column : Type := mkColumn {
  col_name : string;
  col_type : SqlType;
  primary_key : bool;
  not_null : bool;
  col_default : option DefaultExpr;
  check_in : option (list string);      (* [check (col in (...))] *)
  references : option Reference;
}.

Inductive Statement : Type :=
| create_table_if_not_exists (name : string) (cols : list Column)
| create_index (name table column : string).

(** A plain column: no key, nullable, no default, no check, no reference. *)
Definition col (n : string) (t : SqlType) : Column :=
  mkColumn n t false false None None None.

Definition kinematic_chains_columns : list Column :=
  [ mkColumn "id" uuid true false (Some gen_random_uuid) None None;
    mkColumn "user_id" uuid false false None None (Some (mkRef "auth.users" "id" true));
    mkColumn "name" text false true None None None;
    mkColumn "chain_type" text false true (Some (literal (VText "serial")))
      (Some ["serial"; "parallel"; "tree"; "closed_loop"]) None;
    mkColumn "joint_count" integer false true None None None;
    mkColumn "dof" integer false true None None None;
    mkColumn "joints" jsonb false true (Some (literal (VJsonb empty_array))) None None;
    mkColumn "end_effector_count" integer false false (Some (literal (VInteger 1))) None None;
    col "workspace_volume" double_precision;
    mkColumn "created_at" timestamptz false false (Some now) None None ].

Definition ik_solver_jobs_columns : list Column :=
  [ mkColumn "id" uuid true false (Some gen_random_uuid) None None;
    mkColumn "user_id" uuid false false None None (Some (mkRef "auth.users" "id" true));
    mkColumn "chain_id" uuid false false None None
      (Some (mkRef "public.kinematic_chains" "id" true));
    mkColumn "solver_type" text false true (Some (literal (VText "ccd")))
      (Some ["ccd"; "fabrik"; "jacobian"; "analytical"; "hybrid"]) None;
    mkColumn "target_position" jsonb false true None None None;
    col "target_orientation" jsonb;
    mkColumn "status" text false false (Some (literal (VText "pending"))) None None;
    col "iterations" integer;
    col "residual_error" double_precision;
    col "solution" jsonb;
    col "solve_time_ms" double_precision;
    mkColumn "created_at" timestamptz false false (Some now) None None ].

(** The migration, statement by statement. *)
Definition migration_006 : list Statement :=
  [ create_table_if_not_exists "public.kinematic_chains" kinematic_chains_columns;
    create_table_if_not_exists "public.ik_solver_jobs" ik_solver_jobs_columns;
    create_index "idx_kinematic_chains_user" "public.kinematic_chains" "user_id";
    create_index "idx_ik_solver_jobs_chain" "public.ik_solver_jobs" "chain_id";
    create_index "idx_ik_solver_jobs_user" "public.ik_solver_jobs" "user_id" ].

(** *** The database the statements run on

    A row maps column names to values; a table keeps its column definitions
    and its rows.  Tables and indexes are relations of one name space and
    are named with their schema, as the migration names its tables.  The
    [indexes] are those made by [create index]; the index that backs a
    primary key is not recorded.  On rows, the column constraints (type,
    [not null], [check], default) and the uniqueness of a primary key are
    enforced; a foreign key is checked when its table is created, but not
    on the rows written later, and no [on delete cascade] is run. *)

Record TableData : Type := mkTable {
  columns : list Column;
  rows : list (gmap string SqlValue);
}.

Record Database : Type := mkDb {
  tables : gmap string TableData;
  indexes : gmap string (string * string);
}.

(** A database in which an earlier migration has created [auth.users]. *)
Definition db_with_users : Database :=
  mkDb {[ "auth.users" := mkTable [mkColumn "id" uuid true false None None None] [] ]} ∅.

(** That database after this migration. *)
Definition migrated_with_users : Database :=
  mkDb (<["public.ik_solver_jobs" := mkTable ik_solver_jobs_columns []]>
          (<["public.kinematic_chains" := mkTable kinematic_chains_columns []]>
             (tables db_with_users)))
       (<["public.idx_ik_solver_jobs_user" := ("public.ik_solver_jobs", "user_id")]>
          (<["public.idx_ik_solver_jobs_chain" := ("public.ik_solver_jobs", "chain_id")]>
             (<["public.idx_kinematic_chains_user" := ("public.kinematic_chains", "user_id")]>
                ∅))).

Definition has_column (td : TableData) (c : string) : bool :=
  bool_decide (c ∈ col_name <$> columns td).

(** The schema of a qualified name: what stands before its first dot. *)
Fixpoint schema_of (n : string) : string :=
  match n with
  | String c rest => if Ascii.eqb c "." then "" else String c (schema_of rest)
  | EmptyString => ""
  end.

(** An index is created in the schema of its table. *)
Definition index_name (table i : string) : string :=
  schema_of table ++ "." ++ i.

Definition is_relation (db : Database) (n : string) : bool :=
  bool_decide (is_Some (tables db !! n) ∨ is_Some (indexes db !! n)).

(** A foreign key needs its table, and in it the referenced column as the
    primary key; the types of the two columns are not compared. *)
Definition reference_ok (tbls : gmap string TableData) (c : Column) : bool :=
  match references c with
  | None => true
  | Some r =>
      match tbls !! ref_table r with
      | Some td =>
          existsb (λ k, bool_decide (col_name k = ref_column r) && primary_key k) (columns td)
      | None => false
      end
  end.

(** [create table if not exists] skips when a relation of that name exists
    and otherwise resolves the foreign keys, among the tables that exist and
    the new one; [create index] fails on the name of an existing relation
    or a missing table or column. *)
Definition exec (db : Database) (st : Statement) : option Database :=
  match st with
  | create_table_if_not_exists n cols =>
      if is_relation db n then Some db
      else
        let tbls := <[n := mkTable cols []]> (tables db) in
        if forallb (reference_ok tbls) cols then Some (mkDb tbls (indexes db)) else None
  | create_index i t c =>
      if is_relation db (index_name t i) then None
      else match tables db !! t with
           | Some td =>
               if has_column td c
               then Some (mkDb (tables db) (<[index_name t i := (t, c)]> (indexes db)))
               else None
           | None => None
           end
  end.

Fixpoint exec_all (db : Database) (sts : list Statement) : option Database :=
  match sts with
  | [] => Some db
  | st :: sts' => exec db st ≫= λ db', exec_all db' sts'
  end.

(** What the volatile default expressions evaluate to when a statement runs. *)
Record Env : Type := mkEnv {
  fresh_uuid : uuid_value;
  current_time : timestamptz_value;
}.

Definition eval_default (env : Env) (e : DefaultExpr) : SqlValue :=
  match e with
  | gen_random_uuid => VUuid (fresh_uuid env)
  | now => VTimestamptz (current_time env)
  | literal v => v
  end.

Definition default_value (env : Env) (c : Column) : SqlValue :=
  from_option (eval_default env) NULL (col_default c).

(** [integer] is the 32-bit signed type. *)
Definition int4_range (n : Z) : bool :=
  ((-2147483648 <=? n) && (n <=? 2147483647))%Z.

(** A string stands for a sequence of characters; the one character [text]
    cannot hold is the null character. *)
Fixpoint text_ok (s : string) : bool :=
  match s with
  | String c rest => negb (Ascii.eqb c Ascii.zero) && text_ok rest
  | EmptyString => true
  end.

Definition has_type (v : SqlValue) (t : SqlType) : bool :=
  match v, t with
  | NULL, _ => true
  | VText s, text => text_ok s
  | VInteger n, integer => int4_range n
  | VUuid _, uuid | VJsonb _, jsonb | VDouble _, double_precision
  | VTimestamptz _, timestamptz => true
  | _, _ => false
  end.

(** [v in (s1, ..., sn)] in SQL's three-valued logic: unknown on [NULL]. *)
Definition eval_in (v : SqlValue) (vals : list string) : option bool :=
  match v with
  | NULL => None
  | VText s => Some (bool_decide (s ∈ vals))
  | _ => Some false
  end.

(** A check constraint rejects a row only when it evaluates to false. *)
Definition check_passes (c : Column) (v : SqlValue) : bool :=
  match check_in c with
  | Some vals => match eval_in v vals with Some false => false | _ => true end
  | None => true
  end.

Definition is_null (v : SqlValue) : bool :=
  match v with NULL => true | _ => false end.

Definition col_ok (c : Column) (v : SqlValue) : bool :=
  has_type v (col_type c)
  && (negb (not_null c || primary_key c) || negb (is_null v))
  && check_passes c v.

Definition cell (r : gmap string SqlValue) (c : string) : SqlValue :=
  default NULL (r !! c).

Definition row_ok (cols : list Column) (r : gmap string SqlValue) : bool :=
  forallb (λ c, col_ok c (cell r (col_name c))) cols.

(** Two key values are the same; the keys of the migration are [uuid]s. *)
Definition same_key (v w : SqlValue) : bool :=
  match v, w with
  | VUuid a, VUuid b => bool_decide (a = b)
  | VText a, VText b => bool_decide (a = b)
  | VInteger a, VInteger b => bool_decide (a = b)
  | _, _ => false
  end.

(** Two rows agree on a primary key column. *)
Definition key_clash (cols : list Column) (r r' : gmap string SqlValue) : bool :=
  existsb (λ c, primary_key c && same_key (cell r (col_name c)) (cell r' (col_name c))) cols.

Fixpoint keys_unique (cols : list Column) (rs : list (gmap string SqlValue)) : bool :=
  match rs with
  | [] => true
  | r :: rs' => forallb (λ r', negb (key_clash cols r r')) rs' && keys_unique cols rs'
  end.

(** The row an [insert] builds: a column left out takes its default, a
    column given explicitly (also as [NULL]) keeps the given value. *)
Definition build_row (env : Env) (cols : list Column) (given : gmap string SqlValue)
  : gmap string SqlValue :=
  list_to_map ((λ c, (col_name c, default (default_value env c) (given !! col_name c))) <$> cols).

Definition names_known (cols : list Column) (given : gmap string SqlValue) : bool :=
  bool_decide (map_Forall (λ k _, k ∈ col_name <$> cols) given).

Inductive Dml : Type :=
| insert_into (t : string) (given : gmap string SqlValue)
| update (t : string) (assignments : gmap string SqlValue)
    (where_ : gmap string SqlValue -> bool)
| delete_from (t : string) (where_ : gmap string SqlValue -> bool).

Definition update_row (assignments : gmap string SqlValue)
  (where_ : gmap string SqlValue -> bool) (r : gmap string SqlValue) : gmap string SqlValue :=
  if where_ r then assignments ∪ r else r.

Definition put_rows (db : Database) (t : string) (td : TableData)
  (rs : list (gmap string SqlValue)) : Database :=
  mkDb (<[t := mkTable (columns td) rs]> (tables db)) (indexes db).

(** A statement that violates a constraint fails as a whole ([None]) and
    leaves the database as it was.  An [insert] is checked against the
    keys of the rows in the table, an [update] on the rows it leaves. *)
Definition exec_dml (env : Env) (db : Database) (st : Dml) : option Database :=
  match st with
  | insert_into t given =>
      td ← tables db !! t;
      let r := build_row env (columns td) given in
      if names_known (columns td) given && row_ok (columns td) r
         && forallb (λ r', negb (key_clash (columns td) r' r)) (rows td)
      then Some (put_rows db t td (rows td ++ [r])) else None
  | update t assignments where_ =>
      td ← tables db !! t;
      let rs := update_row assignments where_ <$> rows td in
      if names_known (columns td) assignments && forallb (row_ok (columns td)) rs
         && keys_unique (columns td) rs
      then Some (put_rows db t td rs) else None
  | delete_from t where_ =>
      td ← tables db !! t;
      Some (put_rows db t td (filter (λ r, where_ r = false) (rows td)))
  end.

(** The databases an application can produce from [db0], the database the
    earlier migrations left: this migration, followed by any statements that
    succeed. *)
Inductive reachable (db0 : Database) : Database -> Prop :=
| reachable_migrated db : exec_all db0 migration_006 = Some db -> reachable db0 db
| reachable_dml env db st db' :
    reachable db0 db -> exec_dml env db st = Some db' -> reachable db0 db'.

(** The migration creates the two tables itself: they do not exist before. *)
Definition fresh (db0 : Database) : Prop :=
  tables db0 !! "public.kinematic_chains" = None
  ∧ tables db0 !! "public.ik_solver_jobs" = None.

Definition solver_types : list string :=
  ["ccd"; "fabrik"; "jacobian"; "analytical"; "hybrid"].

Definition chain_types : list string :=
  ["serial"; "parallel"; "tree"; "closed_loop"].

(** Table [t] exists with columns [cols], and every stored row satisfies the
    column constraints. *)
Definition holds (db : Database) (t : string) (cols : list Column) : Prop :=
  ∃ rs, tables db !! t = Some (mkTable cols rs)
        ∧ Forall (λ r, row_ok cols r = true) rs.

(** The invariant of the databases reached from the migration. *)
Definition db_valid (db : Database) : Prop :=
  holds db "public.kinematic_chains" kinematic_chains_columns
  ∧ holds db "public.ik_solver_jobs" ik_solver_jobs_columns.

(** The names the migration gives its three indexes. *)
Definition migration_index_names : list string :=
  [ "public.idx_kinematic_chains_user"; "public.idx_ik_solver_jobs_chain";
    "public.idx_ik_solver_jobs_user" ].

End WithDomains.

(** Domains for worked instances: identifiers as text, the JSON arrays of
    numbers, numbers as rationals, times as microseconds. *)
Definition sample_domains : Domains :=
  {| uuid_value := string; jsonb_value := list Q; float8_value := Q;
     timestamptz_value := Z; empty_array := [] |}.

End Schema.

(** ** The engine's intent record and its 8-byte wire format *)

Module Float32.

(** IEEE-754 binary32 numbers as their 32-bit pattern, a [Z] in [0, 2^32):
    bit 31 is the sign, bits 30-23 the biased exponent, bits 22-0 the
    fraction.  A finite double is a rational, so the conversion from a
    double is a function of [Q]. *)

Local Open Scope Z_scope.

(** The fraction [(p/q) * 2^e] as a numerator and a denominator. *)
Definition scale (e p q : Z) : Z * Z :=
  if 0 <=? e then (p * 2 ^ e, q) else (p, q * 2 ^ (- e)).

(** [floor (log2 (p/q))] for positive [p] and [q]. *)
Definition ilog2 (p q : Z) : Z :=
  let e0 := Z.log2 p - Z.log2 q in
  let '(n, d) := scale (- e0) p q in
  if d <=? n then e0 else e0 - 1.

(** [n/d] rounded to the nearest integer, ties to even. *)
Definition round_half_even (n d : Z) : Z :=
  let f := n / d in
  match 2 * (n mod d) ?= d with
  | Lt => f
  | Gt => f + 1
  | Eq => if Z.even f then f else f + 1
  end.

Definition infinity_bits : Z := 0x7F800000.

(** The pattern of the binary32 number nearest to [p/q > 0]: the exponent is
    that of [p/q], or -126 in the subnormal range; the significand is rounded
    at 24 bits; a carry out of the significand moves into the exponent field;
    what exceeds the largest finite number becomes infinity. *)
Definition of_pos (p q : Z) : Z :=
  let e := Z.max (ilog2 p q) (-126) in
  let '(n, d) := scale (23 - e) p q in
  Z.min ((e + 126) * 2 ^ 23 + round_half_even n d) infinity_bits.

(** Modelled from the spec: the wire format stores the magnitude as an
    IEEE-754 float32 (section 4.3); this is the conversion to it, rounding to
    nearest, ties to even. *)
Definition of_Q (x : Q) : Z :=
  match Qnum x with
  | Z0 => 0
  | Zpos p => of_pos (Zpos p) (Zpos (Qden x))
  | Zneg p => 2 ^ 31 + of_pos (Zpos p) (Zpos (Qden x))
  end.

(** The rational a pattern denotes; [None] for infinities and NaN. *)
Definition value (bits : Z) : option Q :=
  let m := bits mod 2 ^ 31 in
  let E := m / 2 ^ 23 in
  let F := m mod 2 ^ 23 in
  let sign := if bits / 2 ^ 31 =? 0 then 1 else -1 in
  if E =? 255 then None
  else if E =? 0 then Some (inject_Z (sign * F) * Qpower 2 (-149))%Q
  else Some (inject_Z (sign * (2 ^ 23 + F)) * Qpower 2 (E - 150))%Q.

(** [f32::to_le_bytes] and [f32::from_le_bytes] on patterns. *)
Definition to_le_bytes (bits : Z) : list Z :=
  [ bits mod 256; (bits / 2 ^ 8) mod 256; (bits / 2 ^ 16) mod 256; (bits / 2 ^ 24) mod 256 ].

Definition from_le_bytes (bs : list Z) : option Z :=
  match bs with
  | [b0; b1; b2; b3] => Some (b0 + b1 * 2 ^ 8 + b2 * 2 ^ 16 + b3 * 2 ^ 24)
  | _ => None
  end.

(** The spacing bound of binary32 at [x >= 0]: half a unit in the last place,
    [2^(e-24)] with [e] the exponent [x] is stored with. *)
Definition half_ulp (x : Q) : Q :=
  match Qnum x with
  | Zpos p => Qpower 2 (Z.max (ilog2 (Zpos p) (Zpos (Qden x))) (-126) - 24)
  | _ => Qpower 2 (-150)
  end.

(** The largest finite binary32 number, [(2^24 - 1) * 2^104]. *)
Definition max_finite : Q := inject_Z ((2 ^ 24 - 1) * 2 ^ 104).

End Float32.

Module Intent.

(** Modelled from the spec: the engine's intent compressor is not part of
    the sources.  Section 3 gives the intent record, section 6 the wire
    format: byte 0 the class tag (0=idle, 1=grasp, 2=release, 3=traverse,
    4=reach), bytes 1-3 the direction components as signed 8-bit values
    (scale 127), bytes 4-7 the magnitude as a little-endian float32. *)
Inductive IntentClass : Type := idle | grasp | release | traverse | reach.

Record IntentRecord : Type := mkIntent {
  class : IntentClass;
  direction : Q * Q * Q;
  magnitude : Q;
}.

Definition class_tag (c : IntentClass) : Z :=
  match c with idle => 0 | grasp => 1 | release => 2 | traverse => 3 | reach => 4 end.

Definition class_of_tag (t : Z) : option IntentClass :=
  match t with
  | 0 => Some idle | 1 => Some grasp | 2 => Some release
  | 3 => Some traverse | 4 => Some reach | _ => None
  end%Z.

(** Modelled from the spec: "signed 8-bit fixed-point values in [-1, 1]
    (scale 127)" leaves the rounding of [127 * x] open; both a truncating
    cast and rounding to nearest (ties away from zero) are modelled. *)
Inductive Rounding : Type := toward_zero | to_nearest.

Definition round_with (mode : Rounding) (x : Q) : Z :=
  match mode with
  | toward_zero => Z.quot (Qnum x) (Zpos (Qden x))
  | to_nearest =>
      (Z.sgn (Qnum x) * ((2 * Z.abs (Qnum x) + Zpos (Qden x)) / (2 * Zpos (Qden x))))%Z
  end.

(** A cast to [i8] saturates. *)
Definition saturate_i8 (n : Z) : Z := Z.max (-128) (Z.min 127 n).

Definition quantize (mode : Rounding) (x : Q) : Z :=
  saturate_i8 (round_with mode (127 * x)%Q).

(** An [i8] as the byte that stores it (two's complement), and back. *)
Definition i8_to_byte (n : Z) : Z := (n mod 256)%Z.
Definition byte_to_i8 (b : Z) : Z := (if b <? 128 then b else b - 256)%Z.

Definition dequantize (b : Z) : Q := (inject_Z (byte_to_i8 b) / 127)%Q.

(** Modelled from the spec: the 8-byte packing of section 4.3. *)
Definition pack (mode : Rounding) (r : IntentRecord) : list Z :=
  let '(x, y, z) := direction r in
  [ class_tag (class r);
    i8_to_byte (quantize mode x);
    i8_to_byte (quantize mode y);
    i8_to_byte (quantize mode z) ]
  ++ Float32.to_le_bytes (Float32.of_Q (magnitude r)).

(** What decoding yields: the class, the direction, and the magnitude as the
    binary32 pattern stored in bytes 4-7. *)
Record Decoded : Type := mkDecoded {
  d_class : IntentClass;
  d_direction : Q * Q * Q;
  d_magnitude : Z;
}.

(** Modelled from the spec: "decoding is the exact inverse". *)
Definition unpack (bs : list Z) : option Decoded :=
  match bs with
  | [t; bx; by_; bz; m0; m1; m2; m3] =>
      c ← class_of_tag t;
      m ← Float32.from_le_bytes [m0; m1; m2; m3];
      Some (mkDecoded c (dequantize bx, dequantize by_, dequantize bz) m)
  | _ => None
  end.

Definition is_byte (b : Z) : Prop := (0 ≤ b < 256)%Z.

Definition in_unit_range (x : Q) : Prop := (-1 <= x)%Q ∧ (x <= 1)%Q.

(** *** The compress-intent endpoint *)

(** Modelled from the spec: the engine's compress-intent handler is not part
    of the sources.  Section 3 gives the motion sample, with its optional
    velocity; section 4.3 the input, the output and the formula of
    [compression_ratio]; section 6 the status codes. *)
Record MotionSample (float : Type) : Type := mkSample {
  timestamp_ms : Z;
  position : list float;
  velocity : option (list float);
}.
Arguments mkSample {float} _ _ _.
Arguments timestamp_ms {float} _.
Arguments position {float} _.
Arguments velocity {float} _.

Record CompressIntentRequest (float : Type) : Type := mkRequest {
  samples : list (MotionSample float);
  sample_rate_hz : Q;
}.
Arguments mkRequest {float} _ _.
Arguments samples {float} _.
Arguments sample_rate_hz {float} _.

(** The output of section 4.3; src/README.md documents a response of this
    shape. *)
Record CompressIntentResponse : Type := mkResponse {
  intent_id : string;
  compressed_bytes : nat;
  original_samples : nat;
  compression_ratio : Q;
  intent_type : string;
  resp_direction : list Q;
  resp_magnitude : Q;
  elapsed_us : nat;
}.

(** The response documented in src/README.md for its two-sample request. *)
Definition readme_response : CompressIntentResponse :=
  {| intent_id := "...";
     compressed_bytes := 8;
     original_samples := 2;
     compression_ratio := 6;
     intent_type := "reach";
     resp_direction := [1; 0; 0]%Q;
     resp_magnitude := 1 # 10;
     elapsed_us := 12 |}.

Definition class_name (c : IntentClass) : string :=
  match c with
  | idle => "idle" | grasp => "grasp" | release => "release"
  | traverse => "traverse" | reach => "reach"
  end.

(** Modelled from the spec: "per-sample size is 32 bytes (timestamp 8 +
    position 24)". *)
Definition timestamp_bytes : nat := 8.
Definition position_bytes : nat := 24.
Definition sample_bytes : nat := timestamp_bytes + position_bytes.

Definition original_sample_byte_size {float} (r : CompressIntentRequest float) : nat :=
  length (samples r) * sample_bytes.

Section Handler.

(** The classification of section 4.3 (net displacement, path length, speed
    statistics and the decision table) is numerical and kept abstract, and
    so is the rounding of the packed direction. *)
Context {float : Type}.
Variable classify : CompressIntentRequest float -> IntentRecord.
Variable mode : Rounding.

(** What the validation reads of a request: the timestamps, the number of
    samples and the rate. *)
Definition as_body (r : CompressIntentRequest float) : Console.CompressIntentBody float :=
  Console.mkBody ((λ s, Console.mkSample (timestamp_ms s) (position s)) <$> samples r)
    (sample_rate_hz r).

(** Modelled from the spec: the handler answers 400 with [{error}] to a
    request that fails validation ([inl]); otherwise it classifies the
    window, packs the record and answers 200 with
    [compression_ratio = (original_sample_byte_size) / 8]. *)
Definition compress_intent (id : string) (elapsed : nat) (r : CompressIntentRequest float)
  : string + CompressIntentResponse :=
  match Console.validate (as_body r) with
  | Console.Reject msg => inl msg
  | Console.Accept =>
      let record := classify r in
      inr {| intent_id := id;
             compressed_bytes := length (pack mode record);
             original_samples := length (samples r);
             compression_ratio :=
               (inject_Z (Z.of_nat (original_sample_byte_size r)) / 8)%Q;
             intent_type := class_name (class record);
             resp_direction := let '(x, y, z) := direction record in [x; y; z];
             resp_magnitude := magnitude record;
             elapsed_us := elapsed |}
  end.

End Handler.

(** The request of the example in src/README.md. *)
Definition readme_request : CompressIntentRequest Q :=
  mkRequest [ mkSample 0 [0; 0; 0]%Q (Some [1; 0; 0]%Q);
              mkSample 100 [1 # 10; 0; 0]%Q (Some [1; 0; 0]%Q) ] 1000.

End Intent.

(** ** The engine's IK endpoint *)

Module IK.

(** Modelled from the spec: the engine's IK solver and its HTTP handler are
    not part of the sources.  Section 4.2 gives the request, the defaults
    ([max_iterations = 100], [tolerance = 1e-6]), the bounds ([M = 10_000],
    [eps_min = 1e-12], [joint_count] in [1, 64]) and the termination rule of
    the iteration; section 5 adds the cooperative deadline the solver
    checks every iteration; sections 6 and 7 give the status codes. *)
Record IkRequest : Type := mkRequest {
  target_position : list Q;
  target_orientation : option (list Q);
  joint_count : Z;
  max_iterations : option Z;
  tolerance : option Q;
}.

(** A decoded request. *)
Record Problem : Type := mkProblem {
  target : list Q;
  orientation : option (list Q);
  dof : nat;
  max_iter : nat;
  tol : Q;
}.

Definition default_max_iterations : Z := 100.
Definition default_tolerance : Q := 1 # 1000000.
Definition M : Z := 10000.
Definition eps_min : Q := 1 # 1000000000000.

(** Modelled from the spec: the validation of section 4.2, with its defaults
    and bounds; a request that fails it is answered with 400. *)
Definition decode (r : IkRequest) : string + Problem :=
  let mi := default default_max_iterations (max_iterations r) in
  let t := default default_tolerance (tolerance r) in
  if negb (length (target_position r) =? 3)%nat then inl "target_position must have 3 components"
  else if negb (from_option (λ o, length o =? 4)%nat true (target_orientation r))
  then inl "target_orientation must have 4 components"
  else if negb ((1 <=? joint_count r) && (joint_count r <=? 64))%Z
  then inl "joint_count out of range"
  else if negb ((0 <=? mi) && (mi <=? M))%Z then inl "max_iterations out of range"
  else if negb (Qle_bool eps_min t) then inl "tolerance out of range"
  else inr {| target := target_position r; orientation := target_orientation r;
              dof := Z.to_nat (joint_count r); max_iter := Z.to_nat mi; tol := t |}.

(** The output of section 4.2, without the identifier and the timing the
    handler adds. *)
Record Solution (JointVec : Type) : Type := mkSolution {
  joint_angles : JointVec;
  iterations : nat;
  converged : bool;
  error_distance : Q;
}.
Arguments mkSolution {JointVec} _ _ _ _.
Arguments joint_angles {JointVec} _.
Arguments iterations {JointVec} _.
Arguments converged {JointVec} _.
Arguments error_distance {JointVec} _.

(** Modelled from the spec: what a run of the solver ends in.  Section 7
    separates the results it returns (converged, not converged, timed out)
    from an internal numerical failure. *)
Inductive Outcome (JointVec : Type) : Type :=
| finished (sol : Solution JointVec)
| numerical_failure.
Arguments finished {JointVec} _.
Arguments numerical_failure {JointVec}.

(** The body of a response: the solution, [{error}] for a 400, or the body
    of a 500, for which the specification fixes no format. *)
Inductive Body (JointVec : Type) : Type :=
| solved (solution_id : string) (s : Solution JointVec) (elapsed_us : nat)
| error (message : string)
| internal_failure.
Arguments solved {JointVec} _ _ _.
Arguments error {JointVec} _.
Arguments internal_failure {JointVec}.

Record HttpResponse (JointVec : Type) : Type := mkHttp {
  status : nat;
  body : Body JointVec;
}.
Arguments mkHttp {JointVec} _ _.
Arguments status {JointVec} _.
Arguments body {JointVec} _.

Section Solver.

(** The numerical part is kept abstract: the state a solver carries between
    iterations (joint vector, damping, stall counter, DLS or CCD mode), one
    iteration of it (a damped least-squares update or a CCD sweep), the
    states in which that iteration meets a numerical failure that damping
    and the fallback do not catch, and the residual norm [‖target − f(q)‖]
    of a joint vector.  The cooperative deadline flag belongs to the HTTP
    layer: [deadline_exceeded k] is what the solver reads at its check of
    iteration [k]. *)
Context {JointVec SolverState : Type}.
Variable start : Problem -> SolverState.
Variable step : Problem -> SolverState -> SolverState.
Variable fails : Problem -> SolverState -> bool.
Variable joints : SolverState -> JointVec.
Variable residual_norm : Problem -> JointVec -> Q.
Variable deadline_exceeded : nat -> bool.

(** The better of the best-so-far candidate and a new one; the earlier one
    is kept on a tie. *)
Definition better (best cand : JointVec * Q) : JointVec * Q :=
  if Qle_bool best.2 cand.2 then best else cand.

(** Modelled from the spec: the iteration of section 4.2, step 4, with the
    deadline check of section 5 and the internal failure of section 7.  At
    iteration count [k], with [fuel] iterations left before
    [max_iterations]: stop with [converged = true] when [‖e‖ <= tolerance];
    stop with [converged = false] and the best-so-far [q] when the count has
    reached [max_iterations], or when the deadline is found exceeded; give
    up when the next iteration fails numerically; iterate otherwise.  A
    solver that stalls keeps iterating and leaves through [max_iterations]
    (section 8, scenario 6: an unreachable target ends with
    [iterations = 100]). *)
Fixpoint iterate (p : Problem) (fuel : nat) (k : nat) (s : SolverState)
  (best : JointVec * Q) : Outcome JointVec :=
  let e := residual_norm p (joints s) in
  let best' := better best (joints s, e) in
  if Qle_bool e (tol p) then finished (mkSolution (joints s) k true e)
  else match fuel with
       | O => finished (mkSolution best'.1 k false best'.2)
       | S fuel' =>
           if deadline_exceeded k then finished (mkSolution best'.1 k false best'.2)
           else if fails p s then numerical_failure
           else iterate p fuel' (S k) (step p s) best'
       end.

(** Modelled from the spec: the solver starts at iteration count 0 with
    [max_iterations] iterations to go; the first candidate is the start. *)
Definition solve (p : Problem) : Outcome JointVec :=
  let s0 := start p in
  iterate p (max_iter p) 0 s0 (joints s0, residual_norm p (joints s0)).

(** The state [j] iterations after state [s], its joint vector and its
    residual norm. *)
Definition state_from (p : Problem) (s : SolverState) (j : nat) : SolverState :=
  Nat.iter j (step p) s.

Definition iterate_from (p : Problem) (s : SolverState) (j : nat) : JointVec :=
  joints (state_from p s j).

Definition residual_from (p : Problem) (s : SolverState) (j : nat) : Q :=
  residual_norm p (iterate_from p s j).

(** The state and the joint vector the solver holds after [k] iterations. *)
Definition state_at (p : Problem) (k : nat) : SolverState :=
  state_from p (start p) k.

Definition iterate_at (p : Problem) (k : nat) : JointVec :=
  iterate_from p (start p) k.

(** The best-so-far candidate after the iterates [0 .. n] from [s] have been
    compared with [best], in the order the loop meets them. *)
Fixpoint best_from (p : Problem) (s : SolverState) (n : nat) (best : JointVec * Q)
  : JointVec * Q :=
  let best' := better best (joints s, residual_norm p (joints s)) in
  match n with
  | O => best'
  | S n' => best_from p (step p s) n' best'
  end.

(** How a run that starts at iteration count [k] in state [s] ends, [n]
    iterations later: on the first iterate within tolerance; or else when
    the fuel, the iterations left before [max_iterations], is used up or the
    deadline is found exceeded; or else in the first state whose iteration
    fails. *)
Definition ends_after (p : Problem) (fuel k : nat) (s : SolverState) (best : JointVec * Q)
  (n : nat) (out : Outcome JointVec) : Prop :=
  match out with
  | finished sol =>
      iterations sol = k + n
      ∧ ((converged sol = true
          ∧ Qle_bool (residual_from p s n) (tol p) = true
          ∧ joint_angles sol = iterate_from p s n
          ∧ error_distance sol = residual_from p s n)
         ∨ (converged sol = false
            ∧ Qle_bool (residual_from p s n) (tol p) = false
            ∧ (n = fuel ∨ deadline_exceeded (k + n) = true)
            ∧ (joint_angles sol, error_distance sol) = best_from p s n best))
  | numerical_failure =>
      n < fuel
      ∧ Qle_bool (residual_from p s n) (tol p) = false
      ∧ deadline_exceeded (k + n) = false
      ∧ fails p (state_from p s n) = true
  end.

(** Modelled from the spec: the handler of sections 6 and 7 answers 400 with
    [{error}] to a request that fails validation, 200 with the solution the
    solver returns, converged or not, and 500 to an internal failure. *)
Definition solve_ik (solution_id : string) (elapsed_us : nat) (r : IkRequest)
  : HttpResponse JointVec :=
  match decode r with
  | inl msg => mkHttp 400 (error msg)
  | inr p =>
      match solve p with
      | finished sol => mkHttp 200 (solved solution_id sol elapsed_us)
      | numerical_failure => mkHttp 500 internal_failure
      end
  end.

End Solver.
End IK.

(** ** JavaScript values and string functions the console page uses *)

Module Js.

(** A parsed JSON value.  An object keeps its fields as a list in source
    order; numbers are the runtime's doubles, kept abstract. *)
#[local] Unset Elimination Schemes.
Inductive Json (float : Type) : Type :=
| JNull
| JBool (b : bool)
| JNumber (x : float)
| JString (s : string)
| JArray (items : list (Json float))
| JObject (fields : list (string * Json float)).
Arguments JNull {float}.
Arguments JBool {float} b.
Arguments JNumber {float} x.
Arguments JString {float} s.
Arguments JArray {float} items.
Arguments JObject {float} fields.
#[local] Set Elimination Schemes.

(** [(e as Error).message] *)
Definition message (e : JsError) : string :=
  match e with Error m | TypeError m | SyntaxError m => m end.

(** [s.split(sep)] for a one-character separator: the pieces between the
    occurrences of [sep]; never an empty array. *)
Fixpoint split (sep : ascii) (s : string) : list string :=
  match s with
  | EmptyString => [EmptyString]
  | String c s' =>
      if decide (c = sep) then EmptyString :: split sep s'
      else match split sep s' with
           | piece :: rest => String c piece :: rest
           | [] => [String c EmptyString]
           end
  end.

(** [pieces.join(sep)] *)
Fixpoint join (sep : ascii) (pieces : list string) : string :=
  match pieces with
  | [] => EmptyString
  | [piece] => piece
  | piece :: rest => piece ++ String sep (join sep rest)
  end.

(** The number of occurrences of a character. *)
Fixpoint count (c : ascii) (s : string) : nat :=
  match s with
  | EmptyString => 0
  | String c' s' => (if decide (c' = c) then 1 else 0) + count c s'
  end.

(** [Boolean(s)] on a string: only the empty string is falsy. *)
Definition Boolean (s : string) : bool :=
  match s with EmptyString => false | String _ _ => true end.

(** [Array.isArray(v)] *)
Definition isArray {float} (v : Json float) : bool :=
  match v with JArray _ => true | _ => false end.

(** [obj[k]] on an object: the value of the field, [undefined] if absent. *)
Definition get {float} (k : string) (v : Json float) : option (Json float) :=
  match v with
  | JObject fields => snd <$> head (filter (λ kv, kv.1 = k) fields)
  | _ => None
  end.

(** ['error' in v]: an own field of an object; no array and no prototype has
    that property; on a primitive the operator throws a [TypeError]. *)
Definition error_in {float} (v : Json float) : option bool :=
  match v with
  | JObject fields => Some (bool_decide ("error" ∈ fields.*1))
  | JArray _ => Some false
  | _ => None
  end.

End Js.

(** ** src/frontend/app/dashboard/console/page.tsx: the console page *)

Module Page.
Import Js.

Inductive Tab : Type := ik | fk | intent | trajectory | chains.

#[global] Instance Tab_eq_dec : EqDecision Tab.
Proof. solve_decision. Defined.

(** The hooks of [ConsolePage]: one field per [useState]. *)
Record State (float : Type) : Type := mkState {
  tab : Tab;
  result : Json float;          (* [null] is [JNull] *)
  loading : bool;
  targetX : string;
  targetY : string;
  targetZ : string;
  jointCount : string;
  angles : string;
  linkLengths : string;
  waypoints : string;
  maxVel : string;
}.
Arguments mkState {float} _ _ _ _ _ _ _ _ _ _ _.
Arguments tab {float} _.
Arguments result {float} _.
Arguments loading {float} _.
Arguments targetX {float} _.
Arguments targetY {float} _.
Arguments targetZ {float} _.
Arguments jointCount {float} _.
Arguments angles {float} _.
Arguments linkLengths {float} _.
Arguments waypoints {float} _.
Arguments maxVel {float} _.

(** The line feed of ['\n']. *)
Definition LF : ascii := "010"%char.
Definition comma : ascii := ","%char.

(** The arguments of the [useState] calls. *)
Definition initial {float} : State float :=
  {| tab := ik; result := JNull; loading := false;
     targetX := "0.5"; targetY := "0.3"; targetZ := "0.8"; jointCount := "7";
     angles := "0.1, 0.3, -0.2, 0.5, 0.1, -0.4, 0.2";
     linkLengths := "0.3, 0.25, 0.2, 0.15, 0.12, 0.1, 0.08";
     waypoints := "0,0,0" ++ String LF ("0.5,0.3,0.2" ++ String LF
                    ("1.0,0.5,0.8" ++ String LF "1.2,0.2,0.5"));
     maxVel := "1.0" |}.

(** The state setters a handler calls: each replaces one field. *)
Definition setTab {float} (t : Tab) (st : State float) : State float :=
  mkState t (result st) (loading st) (targetX st) (targetY st) (targetZ st)
    (jointCount st) (angles st) (linkLengths st) (waypoints st) (maxVel st).

Definition setResult {float} (v : Json float) (st : State float) : State float :=
  mkState (tab st) v (loading st) (targetX st) (targetY st) (targetZ st)
    (jointCount st) (angles st) (linkLengths st) (waypoints st) (maxVel st).

Definition setLoading {float} (b : bool) (st : State float) : State float :=
  mkState (tab st) (result st) b (targetX st) (targetY st) (targetZ st)
    (jointCount st) (angles st) (linkLengths st) (waypoints st) (maxVel st).

(** The text inputs, each with the setter its [onChange] calls. *)
Inductive Field : Type :=
| TargetX | TargetY | TargetZ | JointCount | Angles | LinkLengths | Waypoints | MaxVel.

Definition setField {float} (f : Field) (v : string) (st : State float) : State float :=
  match f with
  | TargetX => mkState (tab st) (result st) (loading st) v (targetY st) (targetZ st)
                 (jointCount st) (angles st) (linkLengths st) (waypoints st) (maxVel st)
  | TargetY => mkState (tab st) (result st) (loading st) (targetX st) v (targetZ st)
                 (jointCount st) (angles st) (linkLengths st) (waypoints st) (maxVel st)
  | TargetZ => mkState (tab st) (result st) (loading st) (targetX st) (targetY st) v
                 (jointCount st) (angles st) (linkLengths st) (waypoints st) (maxVel st)
  | JointCount => mkState (tab st) (result st) (loading st) (targetX st) (targetY st)
                 (targetZ st) v (angles st) (linkLengths st) (waypoints st) (maxVel st)
  | Angles => mkState (tab st) (result st) (loading st) (targetX st) (targetY st)
                 (targetZ st) (jointCount st) v (linkLengths st) (waypoints st) (maxVel st)
  | LinkLengths => mkState (tab st) (result st) (loading st) (targetX st) (targetY st)
                 (targetZ st) (jointCount st) (angles st) v (waypoints st) (maxVel st)
  | Waypoints => mkState (tab st) (result st) (loading st) (targetX st) (targetY st)
                 (targetZ st) (jointCount st) (angles st) (linkLengths st) v (maxVel st)
  | MaxVel => mkState (tab st) (result st) (loading st) (targetX st) (targetY st)
                 (targetZ st) (jointCount st) (angles st) (linkLengths st) (waypoints st) v
  end.

(** The tab whose panel renders an input. *)
Definition field_tab (f : Field) : Tab :=
  match f with
  | TargetX | TargetY | TargetZ | JointCount => ik
  | Angles | LinkLengths => fk
  | Waypoints | MaxVel => trajectory
  end.

(** The request buttons, one per panel. *)
Inductive Button : Type := SolveIk | SolveFk | Compress | Optimize | LoadChains.

Definition button_tab (b : Button) : Tab :=
  match b with
  | SolveIk => ik | SolveFk => fk | Compress => intent
  | Optimize => trajectory | LoadChains => chains
  end.

Section WithRuntime.

(** The runtime: the doubles with the operations the page applies to them,
    [Number] (also the unary plus), the JSON printer and parser, the
    configured base URL. *)
Context {float : Type}.
Variable lit : Q -> float.
Variable of_index : nat -> float.
Variable mul : float -> float -> float.
Variables Math_sin Math_cos : float -> float.
Variable Number : string -> float.
Variable number_truthy : float -> bool.         (* false on 0, -0 and NaN *)
Variable JSON_stringify : Json float -> string.
Variable JSON_parse : string -> option (Json float).
Variable syntax_error_message : string -> string.
Variable env_API_URL : option string.

(** [text.split(',').map(Number)]: [map] passes the index and the array as
    well, which [Number] ignores. *)
Definition numbers (text : string) : list (Json float) :=
  (λ piece, JNumber (Number piece)) <$> split comma text.

(** The body of the IK button:
    [{ target_position: [+targetX, +targetY, +targetZ], joint_count: +jointCount }]. *)
Definition ik_body (st : State float) : Json float :=
  JObject [ ("target_position",
             JArray [ JNumber (Number (targetX st)); JNumber (Number (targetY st));
                      JNumber (Number (targetZ st)) ]);
            ("joint_count", JNumber (Number (jointCount st))) ].

(** The body of the FK button. *)
Definition fk_body (st : State float) : Json float :=
  JObject [ ("joint_angles", JArray (numbers (angles st)));
            ("link_lengths", JArray (numbers (linkLengths st))) ].

(** The body of the intent button, as the JSON value it serializes to. *)
Definition sample_json (s : Console.Sample float) : Json float :=
  JObject [ ("timestamp_ms", JNumber (lit (inject_Z (Console.timestamp_ms s))));
            ("position", JArray (JNumber <$> Console.position s)) ].

Definition intent_body : Json float :=
  let b := Console.intent_body lit of_index mul Math_sin Math_cos in
  JObject [ ("samples", JArray (sample_json <$> Console.samples b));
            ("sample_rate_hz", JNumber (lit (Console.sample_rate_hz b))) ].

(** [waypoints.split('\n').filter(Boolean)]: the lines that are not empty. *)
Definition lines (text : string) : list string :=
  filter (λ l, Boolean l = true) (split LF text).

(** The body of the trajectory button. *)
Definition trajectory_body (st : State float) : Json float :=
  JObject [ ("waypoints", JArray ((λ l, JArray (numbers l)) <$> lines (waypoints st)));
            ("max_velocity", JNumber (Number (maxVel st))) ].

(** The second argument [doFetch] passes to [fetch]. *)
Definition post_init (body : Json float) : Client.RequestInit :=
  {| Client.method := Some "POST";
     Client.body := Some (JSON_stringify body);
     Client.headers := {[ "Content-Type" := "application/json"; "X-API-Key" := "demo" ]} |}.

(** The second argument [doGet] passes to [fetch]. *)
Definition get_init : Client.RequestInit :=
  {| Client.method := None; Client.body := None;
     Client.headers := {[ "X-API-Key" := "demo" ]} |}.

(** The path and the [fetch] options of the request a button sends. *)
Definition button_request (b : Button) (st : State float) : string * Client.RequestInit :=
  match b with
  | SolveIk => ("/api/v1/kinematics/solve-ik", post_init (ik_body st))
  | SolveFk => ("/api/v1/kinematics/solve-fk", post_init (fk_body st))
  | Compress => ("/api/v1/kinematics/compress-intent", post_init intent_body)
  | Optimize => ("/api/v1/kinematics/optimize-trajectory", post_init (trajectory_body st))
  | LoadChains => ("/api/v1/kinematics/chains", get_init)
  end.

(** The URL a request goes to: [`${API}${path}`]. *)
Definition url (path : string) : string := Client.API_URL env_API_URL ++ path.

(** [doFetch] and [doGet] up to the [await]: [setLoading(true); setResult(null)]. *)
Definition begin (st : State float) : State float :=
  setResult JNull (setLoading true st).

(** What the [try] block stores: the parsed body, whatever the status, or
    [{ error: message }] when [fetch] or [r.json()] has thrown. *)
Definition settled (outcome : Promise Client.Response) : Json float :=
  match await outcome (Client.json JSON_parse syntax_error_message) with
  | Resolved v => v
  | Rejected e => JObject [("error", JString (message e))]
  end.

(** [doFetch] and [doGet] from the [await] on: [setResult] in the [try] or
    the [catch], then [setLoading(false)] in the [finally]. *)
Definition finish (outcome : Promise Client.Response) (st : State float) : State float :=
  setLoading false (setResult (settled outcome) st).

(** A button's handler run to completion against a network, with nothing
    happening on the page in between. *)
Definition click_and_wait (fetch : string -> Client.RequestInit -> Promise Client.Response)
  (b : Button) (st : State float) : State float :=
  let '(path, init) := button_request b st in
  finish (fetch (url path) init) (begin st).

(** What happens on the page: a tab button or a text input is used, a
    request button is clicked, the request in flight settles. *)
Inductive Event : Type :=
| ClickTab (t : Tab)
| Change (f : Field) (v : string)
| Click (b : Button)
| Settle (outcome : Promise Client.Response).

(** The page with the requests it is waiting for, oldest first. *)
Record World : Type := mkWorld {
  ui : State float;
  in_flight : list (string * Client.RequestInit);
}.

Definition start : World := mkWorld initial [].

(** An input or a request button exists only on its tab, and a request
    button is [disabled] while [loading]; the tab buttons always work:
    [setTab(t.key); setResult(null)]. *)
Definition step (w : World) (e : Event) : World :=
  match e with
  | ClickTab t => mkWorld (setResult JNull (setTab t (ui w))) (in_flight w)
  | Change f v =>
      if decide (field_tab f = tab (ui w)) then mkWorld (setField f v (ui w)) (in_flight w)
      else w
  | Click b =>
      if decide (button_tab b = tab (ui w)) then
        if loading (ui w) then w
        else mkWorld (begin (ui w))
               (in_flight w ++ [((url (button_request b (ui w)).1),
                                 (button_request b (ui w)).2)])
      else w
  | Settle outcome =>
      match in_flight w with
      | [] => w
      | _ :: rest => mkWorld (finish outcome (ui w)) rest
      end
  end.

Definition run (events : list Event) : World := foldl step start events.

(** [Boolean(v)] on a JSON value. *)
Definition truthy (v : Json float) : bool :=
  match v with
  | JNull => false
  | JBool b => b
  | JNumber x => number_truthy x
  | JString s => Boolean s
  | JArray _ | JObject _ => true
  end.

(** What the conditions of a render select below the tab bar: the result
    panel whose JSX is evaluated, if any, and the error line with the value
    of [result.error]; or the conditions themselves throw.  What a selected
    panel prints of the result is not modelled. *)
Inductive Panel : Type := IkPanel | FkPanel | IntentPanel | TrajectoryPanel | ChainsGrid.

Inductive Rendered : Type :=
| Throws
| Shows (panel : option Panel) (error_line : option (option (Json float))).

(** The panel a tab shows for a result without an [error] field:
    [result && !('error' in result)] on the first four tabs,
    [result && Array.isArray(result)] on the last. *)
Definition panel_of (t : Tab) (r : Json float) : option Panel :=
  match t with
  | ik => Some IkPanel
  | fk => Some FkPanel
  | intent => Some IntentPanel
  | trajectory => Some TrajectoryPanel
  | chains => if isArray r then Some ChainsGrid else None
  end.

(** The conditions of the JSX, in the order it evaluates them.  A falsy
    result short-circuits every [&&]; otherwise ['error' in result] is
    evaluated, by the panel of the first four tabs or by the error line. *)
Definition view (st : State float) : Rendered :=
  let r := result st in
  if truthy r then
    match error_in r with
    | None => Throws
    | Some true => Shows (match tab st with
                          | chains => if isArray r then Some ChainsGrid else None
                          | _ => None
                          end) (Some (get "error" r))
    | Some false => Shows (panel_of (tab st) r) None
    end
  else Shows None None.

(** The operation of the API client (src/frontend/lib/api/client.ts) that
    targets the endpoint of a button, called with the button's body. *)
Definition client_operation (b : Button) (st : State float)
  : Client.Operation (Json float) :=
  match b with
  | SolveIk => Client.solveIk (ik_body st)
  | SolveFk => Client.solveFk (fk_body st)
  | Compress => Client.compressIntent intent_body
  | Optimize => Client.optimizeTrajectory (trajectory_body st)
  | LoadChains => Client.chains
  end.

End WithRuntime.
End Page.

(** * Properties *)

(** ** The kinematics store *)

Section StoreProperties.
Context {V : Type}.
Implicit Types (s : Store.KinematicsState V) (acts : list (Store.Action V)).

Lemma reset_is_initial s : Store.reset s = Store.initial.
Proof. reflexivity. Qed.

Lemma run_app acts1 acts2 s :
  Store.run (acts1 ++ acts2) s = Store.run acts2 (Store.run acts1 s).
Proof. unfold Store.run. apply foldl_app. Qed.

(** C9. [reset] restores exactly the initial state
    [{chain: 'human_arm', result: null, loading: false}] from the state
    reached by any sequence of [setChain], [setResult], [setLoading] and
    [reset] calls (indeed from any state), and it is idempotent. *)
Theorem store_reset_restores_initial :
  Store.initial = Store.mkState (V:=V) "human_arm" None false
  ∧ (∀ acts, Store.reset (Store.run acts Store.initial) = Store.initial)
  ∧ (∀ acts, Store.run (acts ++ [Store.Reset]) Store.initial = Store.initial)
  ∧ (∀ s, Store.reset s = Store.initial)
  ∧ (∀ s, Store.reset (Store.reset s) = Store.reset s).
Proof.
  split; [reflexivity|].
  split; [intros acts; apply reset_is_initial|].
  split; [intros acts; rewrite run_app; cbn; apply reset_is_initial|].
  split; intros s; [apply reset_is_initial|].
  now rewrite !reset_is_initial.
Qed.

(** C10. Each single-field setter modifies only its own field: [setChain]
    sets [chain] and leaves [result] and [loading] unchanged, [setResult]
    sets [result] and leaves [chain] and [loading] unchanged, [setLoading]
    sets [loading] and leaves [chain] and [result] unchanged. *)
Theorem store_setters_frame s :
  (∀ v, Store.chain (Store.setChain v s) = v
        ∧ Store.result (Store.setChain v s) = Store.result s
        ∧ Store.loading (Store.setChain v s) = Store.loading s)
  ∧ (∀ v, Store.result (Store.setResult v s) = v
          ∧ Store.chain (Store.setResult v s) = Store.chain s
          ∧ Store.loading (Store.setResult v s) = Store.loading s)
  ∧ (∀ v, Store.loading (Store.setLoading v s) = v
          ∧ Store.chain (Store.setLoading v s) = Store.chain s
          ∧ Store.result (Store.setLoading v s) = Store.result s).
Proof. destruct s as [c r l]. repeat split. Qed.

End StoreProperties.

(** ** The API client *)

Section ClientProperties.
Context {Json : Type}.
Variable env_API_URL : option string.
Variable fetch : string -> Client.RequestInit -> Promise Client.Response.
Variable JSON_parse : string -> option Json.
Variable syntax_error_message : string -> string.
Variable JSON_stringify : Json -> string.

Local Abbreviation request :=
  (Client.request env_API_URL fetch JSON_parse syntax_error_message).
Local Abbreviation api :=
  (Client.api env_API_URL fetch JSON_parse syntax_error_message JSON_stringify).
Local Abbreviation on_response := (Client.on_response JSON_parse syntax_error_message).
Local Abbreviation json := (Client.json JSON_parse syntax_error_message).
Local Abbreviation request_line := (Client.request_line JSON_stringify).
Local Abbreviation request_args := (Client.request_args JSON_stringify).

(** C2. Every operation of the [api] object sends the method and path of its
    row in the specification's endpoint table, and the seven operations
    cover the seven rows. *)
Theorem api_matches_endpoint_table :
  (∀ op : Client.Operation Json,
      Client.endpoint_table !! Client.table_row op = Some (request_line op)
      ∧ api op
        = await (fetch (Client.API_URL env_API_URL ++ (request_line op).2)
                       (Client.request_init (request_args op).2))
                (Client.on_response JSON_parse syntax_error_message)
      ∧ Client.http_method (Client.request_init (request_args op).2) = (request_line op).1)
  ∧ (∀ b1 b2 b3 b4,
      request_line <$> [ Client.solveIk b1; Client.solveFk b2; Client.compressIntent b3;
                         Client.optimizeTrajectory b4; Client.chains; Client.stats;
                         Client.health ]
      = Client.endpoint_table).
Proof.
  split.
  - intros op. destruct op; repeat split.
  - reflexivity.
Qed.

Lemma on_response_not_ok res :
  Client.ok res = false →
  on_response res
  = Rejected (Error ("API error: " ++ pretty (Client.status res))).
Proof. intros H. unfold Client.on_response. now rewrite H. Qed.

Lemma on_response_ok res :
  Client.ok res = true → on_response res = json res.
Proof. intros H. unfold Client.on_response. now rewrite H. Qed.

(** C8. When [fetch] resolves with a response whose status is not ok,
    [request] throws [Error('API error: <status>')]; the outcome depends on
    the status alone, so the response body (a 400 [{error}] body, say) is
    never returned, also not through the operations of [api].  When the
    status is ok, [request] is [res.json()]: it resolves with the parsed JSON
    body. *)
Theorem request_throws_on_error_status path options res :
  fetch (Client.API_URL env_API_URL ++ path) (Client.request_init options) = Resolved res →
  (Client.ok res = false →
     request path options = Rejected (Error ("API error: " ++ pretty (Client.status res)))
     ∧ ∀ body', Client.on_response JSON_parse syntax_error_message
                  (Client.mkResponse (Client.status res) body')
                = request path options)
  ∧ (Client.ok res = true →
     request path options = Client.json JSON_parse syntax_error_message res
     ∧ ∀ v, JSON_parse (Client.text res) = Some v → request path options = Resolved v)
  ∧ (∀ op res',
       fetch (Client.API_URL env_API_URL ++ (request_args op).1)
             (Client.request_init (request_args op).2) = Resolved res' →
       Client.ok res' = false →
       api op = Rejected (Error ("API error: " ++ pretty (Client.status res')))).
Proof.
  intros Hfetch. unfold Client.request. rewrite Hfetch. cbn [await].
  split; [|split].
  - intros Hok. split; [now apply on_response_not_ok|].
    intros body'. rewrite !on_response_not_ok; [reflexivity|exact Hok|exact Hok].
  - intros Hok. rewrite on_response_ok by exact Hok. split; [reflexivity|].
    intros v Hv. unfold Client.json. now rewrite Hv.
  - intros op res' Hop Hok. unfold Client.api, Client.request. rewrite Hop. cbn [await].
    now apply on_response_not_ok.
Qed.

End ClientProperties.

(** A 400 response with an [{error}] body, over JSON values kept as text:
    the helper throws and the body is lost. *)
Lemma request_throws_on_error_status_witness :
  let fetch := λ (_ : string) (_ : Client.RequestInit),
                 Resolved (Client.mkResponse 400 "{error: joint_count out of range}") in
  Client.request (Json:=string) None fetch Some (λ _, "Unexpected token")
    "/api/v1/kinematics/solve-ik" None
  = Rejected (Error "API error: 400").
Proof.
  intros fetch.
  pose proof (request_throws_on_error_status (Json:=string) None fetch Some
                (λ _, "Unexpected token") id "/api/v1/kinematics/solve-ik" None
                (Client.mkResponse 400 "{error: joint_count out of range}")
                eq_refl) as [Hbad _].
  destruct (Hbad eq_refl) as [H _]. exact H.
Defined.

(** ** The preset registry *)

(** C3. The registry holds exactly five chains, [human_arm] (7 DOF),
    [human_leg] (6), [robotic_arm_6dof] (6), [delta_robot] (3) and [scara]
    (4), each id once and each with as many joints as its DOF; [GET chains]
    returns them in this order; the README's table and the landing page
    show the same chains in the same order. *)
Theorem preset_registry_five_chains :
  length Presets.registry = 5
  ∧ (λ p, (Presets.id p, Presets.dof p)) <$> Presets.registry
    = [ ("human_arm", 7); ("human_leg", 6); ("robotic_arm_6dof", 6);
        ("delta_robot", 3); ("scara", 4) ]
  ∧ NoDup (Presets.id <$> Presets.registry)
  ∧ Forall (λ p, length (Presets.joints p) = Presets.dof p) Presets.registry
  ∧ Presets.get_chains = Presets.registry
  ∧ (λ r, (Presets.row_id r, Presets.row_dof r)) <$> Presets.readme_chain_table
    = (λ p, (Presets.id p, Presets.dof p)) <$> Presets.get_chains
  ∧ Presets.home_label <$> Presets.get_chains = Presets.home_chains.
Proof.
  split; [reflexivity|]. split; [reflexivity|].
  split; [apply (bool_decide_unpack _); vm_compute; exact I|].
  split; [repeat constructor|].
  split; [reflexivity|]. split; [reflexivity|].
  vm_compute. reflexivity.
Qed.

(** ** The console's compress-intent request *)

Lemma non_decreasing_spec ts :
  Console.non_decreasing ts = true
  ↔ ∀ i (a b : Z), ts !! i = Some a → ts !! S i = Some b → (a ≤ b)%Z.
Proof.
  induction ts as [|t1 [|t2 rest] IH].
  - split; [intros _ i a b H; discriminate H | reflexivity].
  - split; [intros _ [|i] a b _ H; discriminate H | reflexivity].
  - change (Console.non_decreasing (t1 :: t2 :: rest))
      with ((t1 <=? t2)%Z && Console.non_decreasing (t2 :: rest)).
    rewrite andb_true_iff, IH, Z.leb_le. split.
    + intros [H12 Hrest] [|i] a b Ha Hb.
      * cbn in Ha, Hb. congruence.
      * apply (Hrest i); assumption.
    + intros H. split.
      * apply (H 0%nat); reflexivity.
      * intros i a b Ha Hb. apply (H (S i)); assumption.
Qed.

Lemma validate_accept {float} (b : Console.CompressIntentBody float) :
  Console.samples b ≠ [] →
  (Z.of_nat (length (Console.samples b)) ≤ 1000000)%Z →
  Console.non_decreasing (Console.timestamp_ms <$> Console.samples b) = true →
  (0 < Console.sample_rate_hz b)%Q →
  Console.validate b = Console.Accept.
Proof.
  intros Hne Hlen Hmono Hrate. unfold Console.validate.
  destruct (Console.samples b) as [|s0 ss] eqn:Hs; [congruence|].
  replace (1000000 <? _)%Z with false by (symmetry; apply Z.ltb_ge; exact Hlen).
  rewrite Hmono. cbn [negb].
  destruct (Qle_bool (Console.sample_rate_hz b) 0) eqn:Hq; [|reflexivity].
  apply Qle_bool_iff in Hq. exfalso. apply (Qlt_not_le _ _ Hrate Hq).
Qed.

Section ConsoleProperties.
Context {float : Type}.
Variable lit : Q -> float.
Variable of_index : nat -> float.
Variable mul : float -> float -> float.
Variables Math_sin Math_cos : float -> float.

Local Abbreviation body := (Console.intent_body lit of_index mul Math_sin Math_cos).

Lemma intent_timestamps :
  Console.timestamp_ms <$> Console.samples body = (λ i, Z.of_nat i * 10)%Z <$> seq 0 100.
Proof.
  unfold Console.intent_body, Console.Array_from. cbn [Console.samples].
  rewrite <- list_fmap_compose. reflexivity.
Qed.

Lemma intent_timestamp_at i (a : Z) :
  (Console.timestamp_ms <$> Console.samples body) !! i = Some a →
  (i < 100)%nat ∧ a = (10 * Z.of_nat i)%Z.
Proof.
  rewrite intent_timestamps, list_lookup_fmap. intros H.
  destruct (seq 0 100 !! i) as [j|] eqn:Hj; [|discriminate H].
  apply lookup_seq in Hj as [-> Hlt]. cbn in H. injection H as <-.
  split; [exact Hlt | lia].
Qed.

(** C6. The request built by the console's sample generator satisfies the
    validity preconditions of compress-intent, so the engine's reject branch
    is not taken for it: [samples] has 100 elements (it is not empty), the
    timestamps are [10 * i], strictly increasing and hence non-decreasing,
    and [sample_rate_hz = 100 > 0]. *)
Theorem console_intent_request_valid :
  length (Console.samples body) = 100
  ∧ Console.samples body ≠ []
  ∧ (∀ i, (i < 100)%nat →
       (Console.timestamp_ms <$> Console.samples body) !! i = Some (10 * Z.of_nat i)%Z)
  ∧ Console.strictly_increasing (Console.timestamp_ms <$> Console.samples body)
  ∧ Console.non_decreasing (Console.timestamp_ms <$> Console.samples body) = true
  ∧ Console.sample_rate_hz body = 100%Q
  ∧ (0 < Console.sample_rate_hz body)%Q
  ∧ Console.validate body = Console.Accept.
Proof.
  assert (Hlen : length (Console.samples body) = 100).
  { unfold Console.intent_body, Console.Array_from. cbn [Console.samples].
    now rewrite length_fmap, length_seq. }
  assert (Hne : Console.samples body ≠ []).
  { intros H. rewrite H in Hlen. discriminate Hlen. }
  assert (Hmono : Console.non_decreasing (Console.timestamp_ms <$> Console.samples body) = true).
  { apply non_decreasing_spec. intros i a b Ha Hb.
    apply intent_timestamp_at in Ha as [_ ->]. apply intent_timestamp_at in Hb as [_ ->]. lia. }
  split; [exact Hlen|]. split; [exact Hne|]. split; [|split; [|split; [exact Hmono|]]].
  - intros i Hi. rewrite intent_timestamps, list_lookup_fmap, lookup_seq_lt by exact Hi.
    cbn. f_equal. lia.
  - intros i j a b Ha Hb Hij.
    apply intent_timestamp_at in Ha as [_ ->]. apply intent_timestamp_at in Hb as [_ ->]. lia.
  - split; [reflexivity|]. split; [reflexivity|].
    apply validate_accept; [exact Hne| rewrite Hlen; lia | exact Hmono | reflexivity].
Qed.

End ConsoleProperties.

(** ** The compression ratio *)

Section CompressionRatio.
Context {float : Type}.
Variable classify : Intent.CompressIntentRequest float -> Intent.IntentRecord.
Variable mode : Intent.Rounding.

Lemma pack_length (r : Intent.IntentRecord) : length (Intent.pack mode r) = 8.
Proof. unfold Intent.pack. now destruct (Intent.direction r) as [[x y] z]. Qed.

Lemma validate_nonempty (b : Console.CompressIntentBody float) :
  Console.validate b = Console.Accept → 1 ≤ length (Console.samples b).
Proof.
  unfold Console.validate. destruct (Console.samples b); [discriminate|].
  intros _. cbn [length]. lia.
Qed.

(** C4. Every response of the compress-intent handler reports the 8 packed
    bytes, the number of samples of the request, and as [compression_ratio]
    the original byte size at 32 bytes per sample divided by 8, which is
    [4 * n] for a window of [n] samples and 8 for two samples. *)
Theorem compression_ratio_is_four_per_sample id elapsed r resp :
  Intent.compress_intent classify mode id elapsed r = inr resp →
  let n := length (Intent.samples r) in
  1 ≤ n
  ∧ Intent.original_samples resp = n
  ∧ Intent.compressed_bytes resp = 8
  ∧ (Intent.compression_ratio resp == inject_Z (Z.of_nat (32 * n)) / 8)%Q
  ∧ (Intent.compression_ratio resp == 4 * inject_Z (Z.of_nat n))%Q
  ∧ (n = 2 → (Intent.compression_ratio resp == 8)%Q).
Proof.
  unfold Intent.compress_intent.
  destruct (Console.validate (Intent.as_body r)) as [|msg] eqn:Hv; [|discriminate].
  intros [= <-]. set (n := length (Intent.samples r)).
  cbn [Intent.original_samples Intent.compressed_bytes Intent.compression_ratio].
  apply validate_nonempty in Hv. cbn [Intent.as_body Console.samples] in Hv.
  rewrite length_fmap in Hv. fold n in Hv.
  assert (Hsize : Intent.original_sample_byte_size r = 32 * n).
  { unfold Intent.original_sample_byte_size. fold n.
    change Intent.sample_bytes with 32. lia. }
  rewrite Hsize.
  assert (Hfour : (inject_Z (Z.of_nat (32 * n)) / 8 == 4 * inject_Z (Z.of_nat n))%Q).
  { rewrite Nat2Z.inj_mul, inject_Z_mult. change (inject_Z (Z.of_nat 32)) with 32%Q. field. }
  split; [exact Hv|]. split; [reflexivity|]. split; [apply pack_length|].
  split; [reflexivity|]. split; [exact Hfour|].
  intros Hn. rewrite Hfour, Hn. reflexivity.
Qed.

End CompressionRatio.

(** The handler on the request of the README's example, classified as the
    README shows: two samples give a ratio of 8. *)
Lemma compression_ratio_is_four_per_sample_witness :
  ∃ resp,
    Intent.compress_intent (λ _, Intent.mkIntent Intent.reach (1, 0, 0)%Q (1 # 10))
      Intent.to_nearest "5b0e7c1e-3f55-4c3a-9c1d-2f6f0f1f7a11" 12 Intent.readme_request
    = inr resp
    ∧ Intent.original_samples resp = 2
    ∧ (Intent.compression_ratio resp == 8)%Q.
Proof.
  eexists. split; [reflexivity|].
  destruct (compression_ratio_is_four_per_sample
              (λ _, Intent.mkIntent Intent.reach (1, 0, 0)%Q (1 # 10)) Intent.to_nearest
              "5b0e7c1e-3f55-4c3a-9c1d-2f6f0f1f7a11" 12 Intent.readme_request _ eq_refl)
    as (_ & Hn & _ & _ & _ & Htwo).
  split; [exact Hn | exact (Htwo eq_refl)].
Defined.

(** The response the README documents for that request reports 6.0, the
    value of a 24-byte sample: the example is approximate, as section 4.3 of
    the specification says. *)
Lemma readme_example_is_approximate :
  Intent.original_samples Intent.readme_response = length (Intent.samples Intent.readme_request)
  ∧ (Intent.compression_ratio Intent.readme_response == inject_Z (24 * 2) / 8)%Q
  ∧ ¬ (Intent.compression_ratio Intent.readme_response
       == inject_Z (Z.of_nat (Intent.original_sample_byte_size Intent.readme_request)) / 8)%Q.
Proof.
  split; [reflexivity|]. split; [reflexivity|].
  intros H. vm_compute in H. discriminate H.
Qed.

(** ** The domain tables *)

Section SchemaProperties.
Import Schema.
Context {D : Domains}.

Lemma is_relation_false db n :
  is_relation db n = false ↔ tables db !! n = None ∧ indexes db !! n = None.
Proof.
  unfold is_relation. rewrite bool_decide_eq_false.
  rewrite !eq_None_not_Some. tauto.
Qed.

Lemma is_relation_table db n td : tables db !! n = Some td → is_relation db n = true.
Proof. intros H. apply bool_decide_eq_true. left. eauto. Qed.

Lemma is_relation_index db n x : indexes db !! n = Some x → is_relation db n = true.
Proof. intros H. apply bool_decide_eq_true. right. eauto. Qed.

Lemma exec_create_table_inv db n cols db' :
  exec db (create_table_if_not_exists n cols) = Some db' →
  (is_relation db n = true ∧ db' = db)
  ∨ (is_relation db n = false
     ∧ forallb (reference_ok (<[n := mkTable cols []]> (tables db))) cols = true
     ∧ db' = mkDb (<[n := mkTable cols []]> (tables db)) (indexes db)).
Proof.
  cbn [exec]. destruct (is_relation db n); [intros [= <-]; now left|].
  destruct (forallb _ cols); intros [= <-]. right. auto.
Qed.

Lemma exec_create_index_inv db i t c db' :
  exec db (create_index i t c) = Some db' →
  is_relation db (index_name t i) = false
  ∧ (∃ td, tables db !! t = Some td ∧ has_column td c = true)
  ∧ db' = mkDb (tables db) (<[index_name t i := (t, c)]> (indexes db)).
Proof.
  cbn [exec]. destruct (is_relation db (index_name t i)); [intros H; discriminate H|].
  destruct (tables db !! t) as [td|]; [|intros H; discriminate H].
  destruct (has_column td c) eqn:Hc; [|intros H; discriminate H].
  intros [= <-]. split; [reflexivity|]. split; [eauto | reflexivity].
Qed.

Lemma create_index_tables db i t c db' :
  exec db (create_index i t c) = Some db' → tables db' = tables db.
Proof. intros H. apply exec_create_index_inv in H as (_ & _ & ->). reflexivity. Qed.

(** What the foreign keys of the two tables need. *)
Lemma chains_references tbls :
  forallb (reference_ok tbls) kinematic_chains_columns = true →
  ∃ users, tbls !! "auth.users" = Some users
    ∧ existsb (λ k, bool_decide (col_name k = "id") && primary_key k) (columns users) = true.
Proof.
  unfold kinematic_chains_columns. cbn [forallb]. rewrite !andb_true_iff.
  intros (_ & H & _). unfold reference_ok in H. cbn [references ref_table ref_column] in H.
  destruct (tbls !! "auth.users") as [users|]; [|discriminate H]. eauto.
Qed.

Lemma jobs_references tbls :
  forallb (reference_ok tbls) ik_solver_jobs_columns = true →
  is_Some (tbls !! "public.kinematic_chains").
Proof.
  unfold ik_solver_jobs_columns. cbn [forallb]. rewrite !andb_true_iff.
  intros (_ & _ & H & _). unfold reference_ok in H. cbn [references ref_table ref_column] in H.
  destruct (tbls !! "public.kinematic_chains") as [td|]; [eauto | discriminate H].
Qed.

(** What a run of the migration that succeeds on a database without the
    two tables implies: [auth.users] exists with its key, the names of the
    three indexes are free, and the run adds the two tables and the three
    indexes. *)
Lemma migration_inversion db0 db :
  fresh db0 → exec_all db0 migration_006 = Some db →
  (∃ users, tables db0 !! "auth.users" = Some users
      ∧ existsb (λ k, bool_decide (col_name k = "id") && primary_key k) (columns users) = true)
  ∧ Forall (λ i, is_relation db0 i = false) migration_index_names
  ∧ tables db = <["public.ik_solver_jobs" := mkTable ik_solver_jobs_columns []]>
                  (<["public.kinematic_chains" := mkTable kinematic_chains_columns []]>
                     (tables db0))
  ∧ indexes db
    = <["public.idx_ik_solver_jobs_user" := ("public.ik_solver_jobs", "user_id")]>
        (<["public.idx_ik_solver_jobs_chain" := ("public.ik_solver_jobs", "chain_id")]>
           (<["public.idx_kinematic_chains_user" := ("public.kinematic_chains", "user_id")]>
              (indexes db0))).
Proof.
  intros [Hc Hj]. unfold migration_006. cbn [exec_all].
  destruct (exec db0 (create_table_if_not_exists "public.kinematic_chains" _))
    as [db1|] eqn:H1; [|intros H; discriminate H]. cbn [mbind option_bind].
  destruct (exec db1 (create_table_if_not_exists "public.ik_solver_jobs" _))
    as [db2|] eqn:H2; [|intros H; discriminate H]. cbn [mbind option_bind].
  destruct (exec db2 (create_index "idx_kinematic_chains_user" _ _)) as [db3|] eqn:H3;
    [|intros H; discriminate H]. cbn [mbind option_bind].
  destruct (exec db3 (create_index "idx_ik_solver_jobs_chain" _ _)) as [db4|] eqn:H4;
    [|intros H; discriminate H]. cbn [mbind option_bind].
  destruct (exec db4 (create_index "idx_ik_solver_jobs_user" _ _)) as [db5|] eqn:H5;
    [|intros H; discriminate H]. cbn [mbind option_bind].
  intros [= <-].
  apply exec_create_index_inv in H3 as (Hf3 & (t3 & Ht3 & _) & ->).
  apply exec_create_index_inv in H4 as (Hf4 & (t4 & Ht4 & _) & ->).
  apply exec_create_index_inv in H5 as (Hf5 & _ & ->).
  change (index_name "public.kinematic_chains" "idx_kinematic_chains_user")
    with "public.idx_kinematic_chains_user" in *.
  change (index_name "public.ik_solver_jobs" "idx_ik_solver_jobs_chain")
    with "public.idx_ik_solver_jobs_chain" in *.
  change (index_name "public.ik_solver_jobs" "idx_ik_solver_jobs_user")
    with "public.idx_ik_solver_jobs_user" in *.
  apply is_relation_false in Hf3 as [Hf3t Hf3i].
  apply is_relation_false in Hf4 as [Hf4t Hf4i].
  apply is_relation_false in Hf5 as [Hf5t Hf5i].
  cbn [tables indexes] in *.
  rewrite lookup_insert_ne in Hf4i by discriminate.
  rewrite !lookup_insert_ne in Hf5i by discriminate.
  apply exec_create_table_inv in H1 as [(_ & ->) | (_ & Hr1 & ->)].
  { apply exec_create_table_inv in H2 as [(_ & ->) | (_ & _ & ->)]; cbn [tables] in Ht3;
      rewrite ?lookup_insert_ne in Ht3 by discriminate; congruence. }
  apply exec_create_table_inv in H2 as [(_ & ->) | (_ & Hr2 & ->)]; cbn [tables indexes] in *.
  { rewrite lookup_insert_ne in Ht4 by discriminate. congruence. }
  apply chains_references in Hr1 as (users & Hu & Hkey).
  rewrite lookup_insert_ne in Hu by discriminate.
  rewrite !lookup_insert_ne in Hf3t by discriminate.
  rewrite !lookup_insert_ne in Hf4t by discriminate.
  rewrite !lookup_insert_ne in Hf5t by discriminate.
  split; [eauto|]. split.
  - unfold migration_index_names.
    repeat (apply Forall_cons; split; [apply is_relation_false; split; assumption|]).
    constructor.
  - split; reflexivity.
Qed.

Lemma migrated_valid db0 db :
  fresh db0 → exec_all db0 migration_006 = Some db → db_valid db.
Proof.
  intros Hfresh Hm. destruct (migration_inversion db0 db Hfresh Hm) as (_ & _ & Ht & _).
  unfold db_valid, holds. rewrite Ht. split; exists [].
  - rewrite lookup_insert_ne, lookup_insert_eq by discriminate. split; [reflexivity|constructor].
  - rewrite lookup_insert_eq. split; [reflexivity|constructor].
Qed.

Lemma holds_rows db t cols td :
  holds db t cols → tables db !! t = Some td →
  Forall (λ r, row_ok (columns td) r = true) (rows td).
Proof. intros (rs & Hl & Hrs) Ht. rewrite Hl in Ht. now injection Ht as <-. Qed.

(** The rows a statement writes to a table that is under the invariant, or
    to another table: in the first case they are valid. *)
Lemma put_rows_valid db t td rs :
  db_valid db → tables db !! t = Some td →
  (∀ cols, holds db t cols → Forall (λ r, row_ok (columns td) r = true) rs) →
  db_valid (put_rows db t td rs).
Proof.
  intros [Hc Hj] Ht Hrs. unfold db_valid.
  assert (Hput : ∀ t0 cols, holds db t0 cols → holds (put_rows db t td rs) t0 cols).
  { intros t0 cols H0. destruct H0 as (rs0 & Hl & Hrs0). unfold holds, put_rows. cbn [tables].
    destruct (decide (t = t0)) as [->|Hne].
    - exists rs. rewrite lookup_insert_eq. pose proof Ht as Ht'.
      rewrite Hl in Ht'. injection Ht' as <-. cbn [columns] in *.
      split; [reflexivity|]. apply (Hrs cols). exists rs0. split; assumption.
    - exists rs0. rewrite lookup_insert_ne by exact Hne. split; assumption. }
  split; apply Hput; assumption.
Qed.

Lemma exec_dml_valid env db st db' :
  db_valid db → exec_dml env db st = Some db' → db_valid db'.
Proof.
  intros Hv Hexec.
  destruct st as [t given | t assignments where_ | t where_]; cbn [exec_dml] in Hexec;
    destruct (tables db !! t) as [td|] eqn:Ht; try discriminate Hexec;
    cbn [mbind option_bind] in Hexec.
  - destruct (names_known _ _ && row_ok _ _ && forallb _ _) eqn:Hok; [|discriminate Hexec].
    injection Hexec as <-. apply andb_true_iff in Hok as [Hok _].
    apply andb_true_iff in Hok as [_ Hrow].
    apply put_rows_valid; [assumption..|]. intros cols Hcols.
    apply Forall_app. split; [exact (holds_rows _ _ _ _ Hcols Ht) | now constructor].
  - destruct (names_known _ _ && forallb _ _ && keys_unique _ _) eqn:Hok;
      [|discriminate Hexec].
    injection Hexec as <-. apply andb_true_iff in Hok as [Hok _].
    apply andb_true_iff in Hok as [_ Hrows].
    apply put_rows_valid; [assumption..|]. intros cols _.
    apply Forall_forall. intros r Hr.
    rewrite forallb_forall in Hrows. apply Hrows. now apply list_elem_of_In.
  - injection Hexec as <-. apply put_rows_valid; [assumption..|]. intros cols Hcols.
    apply Forall_forall. intros r Hr. apply list_elem_of_filter in Hr as [_ Hr].
    pose proof (holds_rows _ _ _ _ Hcols Ht) as Htd.
    rewrite Forall_forall in Htd. now apply Htd.
Qed.

Lemma reachable_valid db0 db : fresh db0 → reachable db0 db → db_valid db.
Proof.
  intros Hfresh. induction 1 as [db Hm | env db st db' _ IH Hexec].
  - now apply (migrated_valid db0).
  - now apply (exec_dml_valid env db st).
Qed.

(** What the constraints of a text column with a [not null] and an [in]
    check say about a cell. *)
Lemma col_ok_text_in c vals r :
  col_type c = text → not_null c = true → check_in c = Some vals →
  col_ok c (cell r (col_name c)) = true →
  ∃ s, r !! col_name c = Some (VText s) ∧ s ∈ vals.
Proof.
  intros Hty Hnn Hin. unfold col_ok, check_passes, cell.
  rewrite Hty, Hnn, Hin. cbn [orb negb].
  destruct (r !! col_name c) as [v|]; simpl; [|intros H; discriminate H].
  destruct v; simpl; intros H; try discriminate H.
  exists s. split; [reflexivity|].
  destruct (bool_decide (s ∈ vals)) eqn:Hs; [now apply bool_decide_eq_true in Hs|].
  rewrite andb_false_r in H. discriminate H.
Qed.

Lemma jobs_row_solver_type r :
  row_ok ik_solver_jobs_columns r = true →
  ∃ s, r !! "solver_type" = Some (VText s) ∧ s ∈ solver_types.
Proof.
  unfold row_ok, ik_solver_jobs_columns. cbn [forallb]. rewrite !andb_true_iff.
  intros (_ & _ & _ & H & _).
  now apply col_ok_text_in with (vals := solver_types) in H.
Qed.

Lemma chains_row_chain_type r :
  row_ok kinematic_chains_columns r = true →
  ∃ s, r !! "chain_type" = Some (VText s) ∧ s ∈ chain_types.
Proof.
  unfold row_ok, kinematic_chains_columns. cbn [forallb]. rewrite !andb_true_iff.
  intros (_ & _ & _ & H & _).
  now apply col_ok_text_in with (vals := chain_types) in H.
Qed.

Lemma build_row_lookup env cols given c :
  NoDup (col_name <$> cols) → c ∈ cols →
  build_row env cols given !! col_name c
  = Some (default (default_value env c) (given !! col_name c)).
Proof.
  intros Hnd Hc. unfold build_row.
  apply elem_of_list_to_map_1.
  - rewrite <- list_fmap_compose. exact Hnd.
  - apply list_elem_of_fmap. now exists c.
Qed.

(** C7. The migration defines the tables [kinematic_chains] and
    [ik_solver_jobs]; in every database reached from it by statements that
    succeed, every row of [ik_solver_jobs] has a [solver_type] among [ccd],
    [fabrik], [jacobian], [analytical] and [hybrid], and every row of
    [kinematic_chains] has a [chain_type] among [serial], [parallel], [tree]
    and [closed_loop]; a row inserted without the column gets ['ccd'],
    respectively ['serial']. *)
Theorem schema_type_columns_invariant db0 db :
  fresh db0 → reachable db0 db →
  ∃ chains jobs,
    tables db !! "public.kinematic_chains" = Some chains
    ∧ tables db !! "public.ik_solver_jobs" = Some jobs
    ∧ columns chains = kinematic_chains_columns
    ∧ columns jobs = ik_solver_jobs_columns
    ∧ (∀ r, r ∈ rows jobs →
         ∃ s, r !! "solver_type" = Some (VText s)
              ∧ s ∈ ["ccd"; "fabrik"; "jacobian"; "analytical"; "hybrid"])
    ∧ (∀ r, r ∈ rows chains →
         ∃ s, r !! "chain_type" = Some (VText s)
              ∧ s ∈ ["serial"; "parallel"; "tree"; "closed_loop"])
    ∧ (∀ env given, given !! "solver_type" = None →
         build_row env (columns jobs) given !! "solver_type" = Some (VText "ccd"))
    ∧ (∀ env given, given !! "chain_type" = None →
         build_row env (columns chains) given !! "chain_type" = Some (VText "serial")).
Proof.
  intros Hfresh Hr.
  destruct (reachable_valid db0 db Hfresh Hr) as [(rc & Hc & Hrc) (rj & Hj & Hrj)].
  exists (mkTable kinematic_chains_columns rc), (mkTable ik_solver_jobs_columns rj).
  split; [exact Hc|]. split; [exact Hj|]. split; [reflexivity|]. split; [reflexivity|].
  cbn [rows columns]. split; [|split; [|split]].
  - intros r Hin. apply jobs_row_solver_type.
    rewrite Forall_forall in Hrj. now apply Hrj.
  - intros r Hin. apply chains_row_chain_type.
    rewrite Forall_forall in Hrc. now apply Hrc.
  - intros env given Hg.
    pose (c := mkColumn "solver_type" text false true (Some (literal (VText "ccd")))
                 (Some ["ccd"; "fabrik"; "jacobian"; "analytical"; "hybrid"]) None).
    assert (Hl : build_row env ik_solver_jobs_columns given !! col_name c
                 = Some (default (default_value env c) (given !! col_name c))).
    { apply build_row_lookup.
      - apply (bool_decide_unpack _). vm_compute. exact I.
      - unfold ik_solver_jobs_columns, c. set_solver. }
    cbn [col_name c] in Hl. rewrite Hg in Hl. exact Hl.
  - intros env given Hg.
    pose (c := mkColumn "chain_type" text false true (Some (literal (VText "serial")))
                 (Some ["serial"; "parallel"; "tree"; "closed_loop"]) None).
    assert (Hl : build_row env kinematic_chains_columns given !! col_name c
                 = Some (default (default_value env c) (given !! col_name c))).
    { apply build_row_lookup.
      - apply (bool_decide_unpack _). vm_compute. exact I.
      - unfold kinematic_chains_columns, c. set_solver. }
    cbn [col_name c] in Hl. rewrite Hg in Hl. exact Hl.
Qed.

End SchemaProperties.

(** A job inserted after the migration, with only its target given, into a
    database that already holds [auth.users]. *)
Lemma schema_type_columns_invariant_witness :
  let env := Schema.mkEnv (D:=Schema.sample_domains) "6f1c0a52-0000-4000-8000-000000000001" 0%Z in
  let target := Schema.VJsonb (D:=Schema.sample_domains) [1 # 2; 3 # 10; 1 # 5]%Q in
  ∃ db,
    (Schema.exec_all Schema.db_with_users Schema.migration_006 ≫= λ db1,
       Schema.exec_dml env db1
         (Schema.insert_into "public.ik_solver_jobs" {[ "target_position" := target ]}))
    = Some db
    ∧ ∃ jobs r, Schema.tables db !! "public.ik_solver_jobs" = Some jobs
        ∧ Schema.rows jobs = [r]
        ∧ ∃ s, r !! "solver_type" = Some (Schema.VText s)
               ∧ s ∈ ["ccd"; "fabrik"; "jacobian"; "analytical"; "hybrid"].
Proof.
  intros env target.
  destruct (Schema.exec_all Schema.db_with_users Schema.migration_006) as [db1|] eqn:Hm;
    [|vm_compute in Hm; discriminate Hm].
  destruct (Schema.exec_dml env db1
         (Schema.insert_into "public.ik_solver_jobs" {[ "target_position" := target ]}))
    as [db|] eqn:Hi.
  - exists db. split; [exact Hi|].
    destruct (schema_type_columns_invariant Schema.db_with_users db
                (conj eq_refl eq_refl)
                (Schema.reachable_dml _ _ _ _ _ (Schema.reachable_migrated _ _ Hm) Hi))
      as (chains & jobs & _ & Hj & _ & _ & Hrows & _).
    assert (Hone : ∃ r, Schema.rows jobs = [r]).
    { vm_compute in Hm. injection Hm as <-.
      vm_compute in Hi. injection Hi as <-.
      vm_compute in Hj. injection Hj as <-. eexists. reflexivity. }
    destruct Hone as [r Hone]. exists jobs, r.
    split; [exact Hj|]. split; [exact Hone|].
    apply Hrows. rewrite Hone. apply list_elem_of_here.
  - vm_compute in Hm. injection Hm as <-.
    vm_compute in Hi. discriminate Hi.
Defined.

(** ** The IK iteration *)

Section IKProperties.
Context {JointVec SolverState : Type}.
Variable start : IK.Problem -> SolverState.
Variable step : IK.Problem -> SolverState -> SolverState.
Variable fails : IK.Problem -> SolverState -> bool.
Variable joints : SolverState -> JointVec.
Variable residual_norm : IK.Problem -> JointVec -> Q.
Variable deadline_exceeded : nat -> bool.

Implicit Types (j k n fuel : nat) (p : IK.Problem) (s : SolverState).

Local Abbreviation iterate :=
  (IK.iterate step fails joints residual_norm deadline_exceeded).
Local Abbreviation solve :=
  (IK.solve start step fails joints residual_norm deadline_exceeded).
Local Abbreviation state_at := (IK.state_at start step).
Local Abbreviation iterate_at := (IK.iterate_at start step joints).

Local Abbreviation s_at := (IK.state_from step).
Local Abbreviation q_at := (IK.iterate_from step joints).
Local Abbreviation e_at := (IK.residual_from step joints residual_norm).
Local Abbreviation best_from := (IK.best_from step joints residual_norm).

Lemma better_le_l (best cand : JointVec * Q) : ((IK.better best cand).2 <= best.2)%Q.
Proof.
  unfold IK.better. destruct (Qle_bool best.2 cand.2) eqn:H.
  - apply Qle_refl.
  - apply Qlt_le_weak, Qnot_le_lt. intros Hle.
    apply Qle_bool_iff in Hle. congruence.
Qed.

Lemma better_le_r (best cand : JointVec * Q) : ((IK.better best cand).2 <= cand.2)%Q.
Proof.
  unfold IK.better. destruct (Qle_bool best.2 cand.2) eqn:H.
  - now apply Qle_bool_iff.
  - apply Qle_refl.
Qed.

Lemma better_cases (best cand : JointVec * Q) :
  IK.better best cand = best ∨ IK.better best cand = cand.
Proof. unfold IK.better. destruct (Qle_bool best.2 cand.2); auto. Qed.

Lemma s_at_step p s j : s_at p (step p s) j = s_at p s (S j).
Proof. unfold IK.state_from. now rewrite Nat.iter_succ_r. Qed.

Lemma q_at_step p s j : q_at p (step p s) j = q_at p s (S j).
Proof. unfold IK.iterate_from. now rewrite s_at_step. Qed.

Lemma e_at_step p s j : e_at p (step p s) j = e_at p s (S j).
Proof. unfold IK.residual_from. now rewrite q_at_step. Qed.

Lemma best_from_minimal p n : ∀ s best,
  ((best_from p s n best).2 <= best.2)%Q
  ∧ (∀ j, j ≤ n → ((best_from p s n best).2 <= e_at p s j)%Q)
  ∧ (best_from p s n best = best
     ∨ ∃ j, j ≤ n ∧ best_from p s n best = (q_at p s j, e_at p s j)).
Proof.
  induction n as [|n IH]; intros s best; cbn [IK.best_from].
  - split; [apply better_le_l|]. split.
    + intros j Hj. replace j with 0 by lia. apply better_le_r.
    + destruct (better_cases best (joints s, residual_norm p (joints s))) as [->| ->];
        [now left | right; exists 0; split; [lia | reflexivity]].
  - set (best' := IK.better best (joints s, residual_norm p (joints s))).
    destruct (IH (step p s) best') as (Hle & Hall & Hcases).
    split; [eapply Qle_trans; [exact Hle | apply better_le_l]|]. split.
    + intros [|j] Hj.
      * eapply Qle_trans; [exact Hle | apply better_le_r].
      * rewrite <- e_at_step. apply Hall. lia.
    + destruct Hcases as [-> | (j & Hj & ->)].
      * destruct (better_cases best (joints s, residual_norm p (joints s))) as [H|H];
          fold best' in H; rewrite H; [now left | right; exists 0; split; [lia | reflexivity]].
      * right. exists (S j). split; [lia|]. now rewrite q_at_step, e_at_step.
Qed.

Lemma iterate_stops p fuel : ∀ k s best,
  ∃ n, n ≤ fuel
    ∧ (∀ j, j < n → Qle_bool (e_at p s j) (IK.tol p) = false
                    ∧ deadline_exceeded (k + j) = false
                    ∧ fails p (s_at p s j) = false)
    ∧ IK.ends_after step fails joints residual_norm deadline_exceeded
        p fuel k s best n (iterate p fuel k s best).
Proof.
  induction fuel as [|fuel IH]; intros k s best; cbn [IK.iterate].
  - exists 0. split; [lia|]. split; [intros j Hj; lia|].
    unfold IK.ends_after. rewrite Nat.add_0_r.
    destruct (Qle_bool (residual_norm p (joints s)) (IK.tol p)) eqn:Hc; cbn.
    + split; [reflexivity|]. left. split; [reflexivity|]. split; [exact Hc|].
      split; reflexivity.
    + split; [reflexivity|]. right. split; [reflexivity|]. split; [exact Hc|].
      split; [now left|]. symmetry. apply surjective_pairing.
  - destruct (Qle_bool (residual_norm p (joints s)) (IK.tol p)) eqn:Hc.
    { exists 0. split; [lia|]. split; [intros j Hj; lia|]. unfold IK.ends_after.
      rewrite Nat.add_0_r. cbn. split; [reflexivity|]. left.
      split; [reflexivity|]. split; [exact Hc|]. split; reflexivity. }
    destruct (deadline_exceeded k) eqn:Hd.
    { exists 0. split; [lia|]. split; [intros j Hj; lia|]. unfold IK.ends_after.
      rewrite Nat.add_0_r. cbn.
      split; [reflexivity|]. right. split; [reflexivity|]. split; [exact Hc|].
      split; [right; exact Hd|]. symmetry. apply surjective_pairing. }
    destruct (fails p s) eqn:Hf.
    { exists 0. split; [lia|]. split; [intros j Hj; lia|]. unfold IK.ends_after.
      rewrite Nat.add_0_r. split; [lia|]. split; [exact Hc|].
      split; [exact Hd | exact Hf]. }
    destruct (IH (S k) (step p s)
                (IK.better best (joints s, residual_norm p (joints s))))
      as (n & Hn & Hbefore & Hend).
    exists (S n). split; [lia|]. split.
    + intros [|j] Hj.
      * rewrite Nat.add_0_r. split; [exact Hc|]. split; [exact Hd | exact Hf].
      * rewrite <- e_at_step, <- s_at_step. replace (k + S j) with (S k + j) by lia.
        apply Hbefore. lia.
    + unfold IK.ends_after in *.
      destruct (iterate p fuel (S k) (step p s) _) as [sol|].
      * rewrite <- q_at_step, <- e_at_step. replace (k + S n) with (S k + n) by lia.
        destruct Hend as (Hit & [(H1 & H2 & H3 & H4) | (H1 & H2 & H3 & H4)]).
        -- split; [exact Hit|]. left. auto.
        -- split; [exact Hit|]. right. cbn [IK.best_from].
           split; [exact H1|]. split; [exact H2|]. split; [|exact H4].
           destruct H3 as [->|H3]; [now left | now right].
      * rewrite <- e_at_step, <- s_at_step. replace (k + S n) with (S k + n) by lia.
        destruct Hend as (H1 & H2 & H3 & H4). split; [lia|]. auto.
Qed.

(** C1, amended. A request that passes validation is answered with HTTP 200
    and the solver's result, converged or not, unless an iteration fails
    numerically, which is answered with 500.  The solver stops at iteration
    count [k] exactly when the residual norm of the [k]-th iterate is at or
    below the tolerance, reported with [converged = true], or when [k] has
    reached [max_iterations] or the deadline is found exceeded at [k], both
    reported with [converged = false] and the best-so-far joint vector: one
    of the iterates computed, of minimum residual norm among them. *)
Theorem ik_terminates_on_tolerance_max_iterations_or_deadline solution_id elapsed_us r p :
  IK.decode r = inr p →
  let resp := IK.solve_ik start step fails joints residual_norm deadline_exceeded
                solution_id elapsed_us r in
  let err := λ k, residual_norm p (iterate_at p k) in
  let stop := λ k, (err k <= IK.tol p)%Q ∨ k = IK.max_iter p ∨ deadline_exceeded k = true in
  match solve p with
  | IK.finished sol =>
      resp = IK.mkHttp 200 (IK.solved solution_id sol elapsed_us)
      ∧ IK.iterations sol ≤ IK.max_iter p
      ∧ stop (IK.iterations sol)
      ∧ (∀ j, j < IK.iterations sol → ¬ stop j ∧ fails p (state_at p j) = false)
      ∧ (IK.converged sol = true ↔ (err (IK.iterations sol) <= IK.tol p)%Q)
      ∧ (IK.converged sol = true →
           IK.joint_angles sol = iterate_at p (IK.iterations sol)
           ∧ IK.error_distance sol = err (IK.iterations sol))
      ∧ (IK.converged sol = false →
           (IK.iterations sol = IK.max_iter p
            ∨ deadline_exceeded (IK.iterations sol) = true)
           ∧ (∃ j, j ≤ IK.iterations sol
                 ∧ IK.joint_angles sol = iterate_at p j ∧ IK.error_distance sol = err j)
           ∧ ∀ j, j ≤ IK.iterations sol → (IK.error_distance sol <= err j)%Q)
  | IK.numerical_failure =>
      resp = IK.mkHttp 500 IK.internal_failure
      ∧ ∃ k, k < IK.max_iter p
          ∧ fails p (state_at p k) = true
          ∧ ∀ j, j ≤ k → ¬ stop j ∧ (j < k → fails p (state_at p j) = false)
  end.
Proof.
  intros Hdec resp err stop.
  assert (Hresp : resp = match solve p with
                         | IK.finished sol => IK.mkHttp 200 (IK.solved solution_id sol elapsed_us)
                         | IK.numerical_failure => IK.mkHttp 500 IK.internal_failure
                         end)
    by (unfold resp, IK.solve_ik; now rewrite Hdec).
  clearbody resp.
  destruct (iterate_stops p (IK.max_iter p) 0 (start p)
              (joints (start p), residual_norm p (joints (start p))))
    as (n & Hn & Hbefore & Hend).
  assert (Hnot : ∀ j, Qle_bool (err j) (IK.tol p) = false → ¬ (err j <= IK.tol p)%Q).
  { intros j Hf Hle. apply Qle_bool_iff in Hle. congruence. }
  assert (Hgo : ∀ j, j < IK.max_iter p → Qle_bool (err j) (IK.tol p) = false →
                  deadline_exceeded j = false → ¬ stop j).
  { intros j Hj Hf Hd [Hle | [-> | Hd']]; [exact (Hnot j Hf Hle) | lia | congruence]. }
  cbn [Nat.add] in Hbefore, Hend. unfold IK.ends_after in Hend.
  change (IK.iterate step fails joints residual_norm deadline_exceeded p (IK.max_iter p) 0
            (start p) (joints (start p), residual_norm p (joints (start p))))
    with (solve p) in Hend.
  destruct (solve p) as [sol|].
  - destruct Hend as (Hit & Hend). cbn [Nat.add] in Hit. rewrite Hit.
    split; [exact Hresp|]. split; [exact Hn|].
    assert (Hprev : ∀ j, j < n → ¬ stop j ∧ fails p (state_at p j) = false).
    { intros j Hj. destruct (Hbefore j Hj) as (Hc & Hd & Hf).
      split; [apply Hgo; [lia | exact Hc | exact Hd] | exact Hf]. }
    destruct Hend as [(Hc & Hle & Hja & Hed) | (Hc & Hgt & Hwhy & Hbest)].
    + apply Qle_bool_iff in Hle.
      split; [left; exact Hle|]. split; [exact Hprev|].
      split; [split; [intros _; exact Hle | intros _; exact Hc]|].
      split; [intros _; split; [exact Hja | exact Hed]|].
      intros Hf. congruence.
    + assert (Hexit : n = IK.max_iter p ∨ deadline_exceeded n = true) by exact Hwhy.
      split; [right; exact Hexit|]. split; [exact Hprev|].
      split; [split; [intros Ht; congruence | intros Hle; exfalso; exact (Hnot _ Hgt Hle)]|].
      split; [intros Ht; congruence|].
      intros _. split; [exact Hexit|].
      destruct (best_from_minimal p n (start p)
                  (joints (start p), residual_norm p (joints (start p))))
        as (_ & Hmin & Hcases).
      rewrite <- Hbest in Hmin, Hcases. cbn [fst snd] in Hmin.
      split; [|exact Hmin].
      destruct Hcases as [Heq | (j & Hj & Heq)].
      * exists 0. split; [lia|]. injection Heq as -> ->. split; reflexivity.
      * exists j. split; [exact Hj|]. injection Heq as -> ->. split; reflexivity.
  - destruct Hend as (Hlt & Hc & Hd & Hf).
    split; [exact Hresp|]. exists n. split; [exact Hlt|]. split; [exact Hf|].
    intros j Hj. destruct (decide (j = n)) as [->|Hne].
    + split; [apply Hgo; assumption | lia].
    + destruct (Hbefore j ltac:(lia)) as (Hc' & Hd' & Hf').
      split; [apply Hgo; [lia | exact Hc' | exact Hd'] | intros _; exact Hf'].
Qed.

End IKProperties.

(** The claim as stated fails when the deadline passes: a solver that halves
    a scalar residual from 1, asked for a tolerance of 1/100 within 100
    iterations, finds the deadline exceeded at its check of iteration 2 and
    returns [converged = false] there, with a residual of 1/4 and 98
    iterations to go. *)
Lemma ik_deadline_exit_before_max_iterations :
  let p := IK.mkProblem [1 # 2; 3 # 10; 2 # 10]%Q None 7 100 (1 # 100)%Q in
  ∃ sol,
    IK.solve (λ _, 1%Q) (λ _ q, (q / 2)%Q) (λ _ _, false) id (λ _ q, q) (λ k, 2 <=? k) p
    = IK.finished sol
    ∧ IK.converged sol = false
    ∧ IK.iterations sol = 2
    ∧ ¬ (IK.error_distance sol <= IK.tol p)%Q
    ∧ IK.iterations sol ≠ IK.max_iter p.
Proof.
  intros p. eexists. split; [vm_compute; reflexivity|].
  split; [reflexivity|]. split; [reflexivity|].
  split; [intros H; vm_compute in H; now apply H | discriminate].
Qed.

(** The same solver and request without a deadline in the way, asked for
    3 iterations: it does not converge, and the answer is still 200 with
    the best iterate, the last one. *)
Lemma ik_terminates_on_tolerance_max_iterations_or_deadline_witness :
  let r := IK.mkRequest [1 # 2; 3 # 10; 2 # 10]%Q None 7 (Some 3%Z) (Some (1 # 100)%Q) in
  let resp := IK.solve_ik (λ _, 1%Q) (λ _ q, (q / 2)%Q) (λ _ _, false) id (λ _ q, q)
                (λ _, false) "5b0e7c1e-3f55-4c3a-9c1d-2f6f0f1f7a10" 150 r in
  IK.status resp = 200
  ∧ ∃ sol, IK.body resp = IK.solved "5b0e7c1e-3f55-4c3a-9c1d-2f6f0f1f7a10" sol 150
           ∧ IK.converged sol = false ∧ IK.iterations sol = 3.
Proof.
  intros r resp.
  pose proof (ik_terminates_on_tolerance_max_iterations_or_deadline
                (λ _, 1%Q) (λ _ q, (q / 2)%Q) (λ _ _, false) id (λ _ q, q) (λ _, false)
                "5b0e7c1e-3f55-4c3a-9c1d-2f6f0f1f7a10" 150 r
                (IK.mkProblem [1 # 2; 3 # 10; 2 # 10]%Q None 7 3 (1 # 100)%Q) eq_refl) as H.
  cbv zeta in H.
  destruct (IK.solve _ _ _ _ _ _ _) as [sol|] eqn:Hsol in H; [|vm_compute in Hsol; discriminate Hsol].
  destruct H as (Hresp & _ & _ & _ & _ & _ & Hfalse).
  assert (Hc : IK.converged sol = false).
  { vm_compute in Hsol. injection Hsol as <-. reflexivity. }
  destruct (Hfalse Hc) as ([Hmax | Hdead] & _); [|discriminate Hdead].
  unfold resp. rewrite Hresp. split; [reflexivity|].
  exists sol. split; [reflexivity|]. split; [exact Hc | exact Hmax].
Defined.

(** ** The binary32 conversion *)

Section Float32Properties.
Import Float32.
Local Open Scope Q_scope.

Lemma two_neq_0 : ¬ (2 == 0)%Q.
Proof. discriminate. Qed.

Lemma pow2_pos k : 0 < 2 ^ k.
Proof. apply Qpower_0_lt. reflexivity. Qed.

Lemma pow2_add a b : 2 ^ (a + b) == 2 ^ a * 2 ^ b.
Proof. apply Qpower_plus, two_neq_0. Qed.

Lemma pow2_succ a : 2 ^ (a + 1) == 2 * 2 ^ a.
Proof. rewrite pow2_add. change (2 ^ 1) with 2. ring. Qed.

Lemma pow2_inv a : 2 ^ a * 2 ^ (- a) == 1.
Proof. rewrite <- pow2_add, Z.add_opp_diag_r. reflexivity. Qed.

Lemma inject_Z_pos z : (0 < z)%Z → 0 < inject_Z z.
Proof. intros H. change 0 with (inject_Z 0). now rewrite <- Zlt_Qlt. Qed.

Lemma pow2_inject k : (0 <= k)%Z → inject_Z (2 ^ k) == 2 ^ k.
Proof. intros H. now rewrite Zpower_Qpower. Qed.

(** [scale k p q] is the fraction [(p/q) * 2^k]. *)
Lemma scale_spec k p q n d :
  (0 < p)%Z → (0 < q)%Z → scale k p q = (n, d) →
  (0 < n)%Z ∧ (0 < d)%Z ∧ inject_Z n * inject_Z q == inject_Z p * 2 ^ k * inject_Z d.
Proof.
  intros Hp Hq. unfold scale. destruct (0 <=? k)%Z eqn:Hk; intros [= <- <-].
  - apply Z.leb_le in Hk. split; [|split; [exact Hq|]].
    + apply Z.mul_pos_pos; [exact Hp | now apply Z.pow_pos_nonneg].
    + rewrite inject_Z_mult, pow2_inject by exact Hk. ring.
  - apply Z.leb_gt in Hk. split; [exact Hp | split].
    + apply Z.mul_pos_pos; [exact Hq | apply Z.pow_pos_nonneg; lia].
    + rewrite inject_Z_mult, pow2_inject by lia.
      transitivity (inject_Z p * inject_Z q * (2 ^ k * 2 ^ (- k))); [|ring].
      rewrite pow2_inv. ring.
Qed.

(** Rounding to nearest moves a fraction by at most one half. *)
Lemma round_half_even_bound n d :
  (0 < d)%Z →
  (2 * round_half_even n d * d - d <= 2 * n <= 2 * round_half_even n d * d + d)%Z.
Proof.
  intros Hd. unfold round_half_even.
  pose proof (Z.div_mod n d ltac:(lia)) as Hdm.
  pose proof (Z.mod_pos_bound n d Hd) as Hr.
  destruct (Z.compare_spec (2 * (n mod d)) d) as [He|Hl|Hg];
    [destruct (Z.even (n / d))|..]; nia.
Qed.

Lemma round_half_even_le n d K :
  (0 < d)%Z → (n <= K * d)%Z → (round_half_even n d <= K)%Z.
Proof. intros Hd Hn. pose proof (round_half_even_bound n d Hd). nia. Qed.

Lemma round_half_even_ge n d K :
  (0 < d)%Z → (K * d <= n)%Z → (K <= round_half_even n d)%Z.
Proof. intros Hd Hn. pose proof (round_half_even_bound n d Hd). nia. Qed.


(** Comparing the scaled fraction with an integer. *)
Lemma scale_cmp k p q n d K :
  (0 < p)%Z → (0 < q)%Z → scale k p q = (n, d) →
  (K * d <= n)%Z ↔ inject_Z K * 2 ^ (- k) * inject_Z q <= inject_Z p.
Proof.
  intros Hp Hq Hs. destruct (scale_spec k p q n d Hp Hq Hs) as (Hn & Hd & Heq).
  assert (HQq : 0 < inject_Z q) by (now apply inject_Z_pos).
  assert (HQd : 0 < inject_Z d) by (now apply inject_Z_pos).
  pose proof (pow2_pos k) as Hk. pose proof (pow2_pos (- k)) as Hk'.
  pose proof (pow2_inv k) as Hinv.
  rewrite Zle_Qle, inject_Z_mult.
  rewrite <- (Qmult_le_r _ _ (inject_Z q) HQq), Heq.
  rewrite <- (Qmult_le_r (inject_Z K * 2 ^ (- k) * inject_Z q) _ (2 ^ k * inject_Z d)).
  - assert (E : inject_Z K * 2 ^ (- k) * inject_Z q * (2 ^ k * inject_Z d)
                == inject_Z K * inject_Z d * inject_Z q * (2 ^ k * 2 ^ (- k))) by ring.
    rewrite E, Hinv.
    assert (E2 : inject_Z p * (2 ^ k * inject_Z d) == inject_Z p * 2 ^ k * inject_Z d) by ring.
    rewrite E2. rewrite Qmult_1_r. reflexivity.
  - apply Qmult_lt_0_compat; assumption.
Qed.

Lemma scale_cmp_lt k p q n d K :
  (0 < p)%Z → (0 < q)%Z → scale k p q = (n, d) →
  (n < K * d)%Z ↔ inject_Z p < inject_Z K * 2 ^ (- k) * inject_Z q.
Proof.
  intros Hp Hq Hs. pose proof (scale_cmp k p q n d K Hp Hq Hs) as H. split.
  - intros Hlt. apply Qnot_le_lt. intros Hle. apply H in Hle. lia.
  - intros Hlt. apply Z.nle_gt. intros Hle. apply H in Hle.
    exact (Qlt_not_le _ _ Hlt Hle).
Qed.

(** [ilog2 p q] is the exponent of [p/q]: [2^e <= p/q < 2^(e+1)]. *)
Lemma ilog2_spec p q :
  (0 < p)%Z → (0 < q)%Z →
  2 ^ ilog2 p q * inject_Z q <= inject_Z p
  ∧ inject_Z p < 2 ^ (ilog2 p q + 1) * inject_Z q.
Proof.
  intros Hp Hq. unfold ilog2.
  set (lp := Z.log2 p). set (lq := Z.log2 q). set (e0 := (lp - lq)%Z).
  destruct (scale (- e0) p q) as [n d] eqn:Hs.
  pose proof (scale_cmp _ _ _ _ _ 1 Hp Hq Hs) as Hle.
  pose proof (scale_cmp_lt _ _ _ _ _ 1 Hp Hq Hs) as Hlt.
  rewrite Z.opp_involutive, Z.mul_1_l, Qmult_1_l in Hle, Hlt.
  destruct (Z.log2_spec p Hp) as [Hp1 Hp2]. destruct (Z.log2_spec q Hq) as [Hq1 Hq2].
  fold lp in Hp1, Hp2. fold lq in Hq1, Hq2.
  pose proof (Z.log2_nonneg p) as Hlp. pose proof (Z.log2_nonneg q) as Hlq.
  fold lp in Hlp. fold lq in Hlq.
  rewrite Zle_Qle, pow2_inject in Hp1, Hq1 by assumption.
  rewrite Zlt_Qlt, pow2_inject in Hp2, Hq2 by lia.
  unfold Z.succ in Hp2, Hq2. rewrite pow2_succ in Hp2, Hq2.
  assert (He0 : 2 ^ e0 * 2 ^ lq == 2 ^ lp).
  { rewrite <- pow2_add. unfold e0. now replace (lp - lq + lq)%Z with lp by lia. }
  pose proof (pow2_pos e0) as H0. pose proof (pow2_pos lq) as H1.
  pose proof (pow2_pos lp) as H2.
  destruct (d <=? n)%Z eqn:Hc.
  - apply Z.leb_le in Hc. split; [now apply Hle|].
    rewrite pow2_succ. nra.
  - apply Z.leb_gt in Hc. apply Hlt in Hc.
    replace (e0 - 1 + 1)%Z with e0 by lia. split; [|exact Hc].
    assert (E : 2 ^ e0 == 2 * 2 ^ (e0 - 1)).
    { rewrite <- pow2_succ. now replace (e0 - 1 + 1)%Z with e0 by lia. }
    pose proof (pow2_pos (e0 - 1)) as H3. nra.
Qed.


Lemma scale_cmp_ge k p q n d K :
  (0 < p)%Z → (0 < q)%Z → scale k p q = (n, d) →
  (n <= K * d)%Z ↔ inject_Z p <= inject_Z K * 2 ^ (- k) * inject_Z q.
Proof.
  intros Hp Hq Hs. destruct (scale_spec k p q n d Hp Hq Hs) as (Hn & Hd & Heq).
  assert (HQq : 0 < inject_Z q) by (now apply inject_Z_pos).
  assert (HQd : 0 < inject_Z d) by (now apply inject_Z_pos).
  pose proof (pow2_pos k) as Hk. pose proof (pow2_inv k) as Hinv.
  rewrite Zle_Qle, inject_Z_mult.
  rewrite <- (Qmult_le_r _ _ (inject_Z q) HQq), Heq.
  rewrite <- (Qmult_le_r _ (inject_Z K * 2 ^ (- k) * inject_Z q) (2 ^ k * inject_Z d)).
  - assert (E : inject_Z K * 2 ^ (- k) * inject_Z q * (2 ^ k * inject_Z d)
                == inject_Z K * inject_Z d * inject_Z q * (2 ^ k * 2 ^ (- k))) by ring.
    rewrite E, Hinv.
    assert (E2 : inject_Z p * (2 ^ k * inject_Z d) == inject_Z p * 2 ^ k * inject_Z d) by ring.
    rewrite E2. rewrite Qmult_1_r. reflexivity.
  - apply Qmult_lt_0_compat; assumption.
Qed.

(** The rational a finite pattern with exponent field [E] and fraction [F]
    denotes. *)
Lemma value_fields E F :
  (0 <= F < 2 ^ 23)%Z → (0 <= E < 255)%Z →
  value (E * 2 ^ 23 + F)
  = Some (if (E =? 0)%Z then inject_Z (1 * F) * 2 ^ (-149)
          else inject_Z (1 * (2 ^ 23 + F)) * 2 ^ (E - 150)).
Proof.
  intros HF HE. unfold value.
  change (2 ^ 23)%Z with 8388608%Z in *. change (2 ^ 31)%Z with 2147483648%Z.
  assert (Hm : ((E * 8388608 + F) mod 2147483648 = E * 8388608 + F)%Z)
    by (apply Z.mod_small; lia).
  assert (Hs : ((E * 8388608 + F) / 2147483648 = 0)%Z)
    by (apply Z.div_small; lia).
  rewrite Hm, Hs.
  assert (HEq : ((E * 8388608 + F) / 8388608 = E)%Z)
    by (symmetry; apply (Z.div_unique _ _ E F); lia).
  assert (HFq : ((E * 8388608 + F) mod 8388608 = F)%Z)
    by (symmetry; apply (Z.mod_unique _ _ E F); lia).
  rewrite HEq, HFq. cbn [Z.eqb].
  replace (E =? 255)%Z with false by (symmetry; apply Z.eqb_neq; lia).
  destruct (E =? 0)%Z; reflexivity.
Qed.

(** A significand [m] stored with exponent [e]: the pattern
    [(e + 126) * 2^23 + m] denotes [m * 2^(e - 23)], also when [m] is below
    [2^23] (subnormal, [e = -126]) or equal to [2^24] (carry). *)
Lemma value_significand e m :
  (-126 <= e)%Z → (0 <= m <= 2 ^ 24)%Z → (m < 2 ^ 23 → e = -126)%Z →
  ((e + 126) * 2 ^ 23 + m < infinity_bits)%Z →
  ∃ v, value ((e + 126) * 2 ^ 23 + m) = Some v ∧ v == inject_Z m * 2 ^ (e - 23).
Proof.
  intros He Hm Hsub Hfin. unfold infinity_bits in Hfin.
  change (2 ^ 23)%Z with 8388608%Z in *. change (2 ^ 24)%Z with 16777216%Z in *.
  destruct (Z_lt_ge_dec m 8388608%Z) as [Hlo|Hhi].
  - rewrite (Hsub Hlo). eexists. split.
    + change ((-126 + 126) * 8388608 + m)%Z with (0 * 2 ^ 23 + m)%Z.
      apply value_fields; [change (2 ^ 23)%Z with 8388608%Z; lia | lia].
    + cbn [Z.eqb]. rewrite Z.mul_1_l. reflexivity.
  - destruct (Z.eq_dec m 16777216%Z) as [->|Hne].
    + eexists. split.
      * replace ((e + 126) * 8388608 + 16777216)%Z with ((e + 128) * 2 ^ 23 + 0)%Z
          by (change (2 ^ 23)%Z with 8388608%Z; lia).
        apply value_fields; [change (2 ^ 23)%Z with 8388608%Z; lia | lia].
      * replace (e + 128 =? 0)%Z with false by (symmetry; apply Z.eqb_neq; lia).
        replace (e + 128 - 150)%Z with ((e - 23) + 1)%Z by lia.
        rewrite pow2_succ. cbn [Z.mul Z.add Z.pow Z.pow_pos Pos.iter Pos.mul]. 
        change (inject_Z (1 * (2 ^ 23 + 0))) with (inject_Z 8388608).
        change (inject_Z 16777216) with (2 * inject_Z 8388608). ring.
    + eexists. split.
      * replace ((e + 126) * 8388608 + m)%Z with ((e + 127) * 2 ^ 23 + (m - 8388608))%Z
          by (change (2 ^ 23)%Z with 8388608%Z; lia).
        apply value_fields; [change (2 ^ 23)%Z with 8388608%Z; lia | lia].
      * replace (e + 127 =? 0)%Z with false by (symmetry; apply Z.eqb_neq; lia).
        replace (e + 127 - 150)%Z with (e - 23)%Z by lia.
        replace (1 * (2 ^ 23 + (m - 8388608)))%Z with m
          by (change (2 ^ 23)%Z with 8388608%Z; lia).
        reflexivity.
Qed.


Lemma pow2_le a b : (a <= b)%Z → 2 ^ a <= 2 ^ b.
Proof. intros H. apply Qpower_le_compat_l; [exact H | discriminate]. Qed.

Lemma pow2_lt_inv a b : 2 ^ a < 2 ^ b → (a < b)%Z.
Proof. intros H. apply (Qpower_lt_compat_l_inv 2); [exact H | reflexivity]. Qed.

(** The pattern of a positive fraction is never negative and never beyond
    that of infinity. *)
Lemma of_pos_range p q :
  (0 < p)%Z → (0 < q)%Z → (0 <= of_pos p q <= infinity_bits)%Z.
Proof.
  intros Hp Hq. unfold of_pos.
  set (e := Z.max (ilog2 p q) (-126)).
  destruct (scale (23 - e) p q) as [n d] eqn:Hs.
  destruct (scale_spec _ _ _ _ _ Hp Hq Hs) as (Hn & Hd & _).
  pose proof (round_half_even_ge n d 0 Hd ltac:(lia)) as Hm.
  assert (He : (-126 <= e)%Z) by (unfold e; lia).
  unfold infinity_bits. change (2 ^ 23)%Z with 8388608%Z. lia.
Qed.

(** Within the finite range the conversion yields a finite pattern, whose
    value is within half a unit in the last place of the fraction. *)
Lemma of_pos_accurate p q :
  (0 < p)%Z → (0 < q)%Z → inject_Z p <= max_finite * inject_Z q →
  (of_pos p q < infinity_bits)%Z
  ∧ ∃ v, value (of_pos p q) = Some v
         ∧ Qabs (v - inject_Z p / inject_Z q) <= 2 ^ (Z.max (ilog2 p q) (-126) - 24).
Proof.
  intros Hp Hq Hmax. unfold of_pos.
  destruct (ilog2_spec p q Hp Hq) as [Hlo Hhi].
  set (e0 := ilog2 p q) in *. set (e := Z.max e0 (-126)).
  assert (He : (-126 <= e)%Z) by (unfold e; lia).
  assert (He0 : (e0 <= e)%Z) by (unfold e; lia).
  destruct (scale (23 - e) p q) as [n d] eqn:Hs.
  destruct (scale_spec _ _ _ _ _ Hp Hq Hs) as (Hn & Hd & Heq).
  set (m := round_half_even n d).
  assert (HQq : 0 < inject_Z q) by (now apply inject_Z_pos).
  assert (HQd : 0 < inject_Z d) by (now apply inject_Z_pos).
  assert (Hk : (- (23 - e) = e - 23)%Z) by lia.
  (* the significand has at most 24 bits, or carries to 2^24 *)
  assert (Hn24 : (n < 2 ^ 24 * d)%Z).
  { apply (scale_cmp_lt _ _ _ _ _ _ Hp Hq Hs). rewrite Hk, pow2_inject by lia.
    rewrite <- pow2_add. replace (24 + (e - 23))%Z with (e + 1)%Z by lia.
    eapply Qlt_le_trans; [exact Hhi|].
    apply Qmult_le_compat_r; [apply pow2_le; lia | now apply Qlt_le_weak]. }
  assert (Hm24 : (0 <= m <= 2 ^ 24)%Z).
  { split; [apply round_half_even_ge; lia | apply round_half_even_le; lia]. }
  (* a normal number has its leading bit set *)
  assert (Hsub : (m < 2 ^ 23 → e = -126)%Z).
  { intros Hm. destruct (Z_lt_ge_dec e0 (-126)%Z) as [Hlt|Hge]; [unfold e; lia|].
    exfalso. assert (Hee : e = e0) by (unfold e; lia).
    assert (Hn23 : (2 ^ 23 * d <= n)%Z).
    { apply (scale_cmp _ _ _ _ _ _ Hp Hq Hs). rewrite Hk, pow2_inject by lia.
      rewrite <- pow2_add. replace (23 + (e - 23))%Z with e0 by lia. exact Hlo. }
    pose proof (round_half_even_ge n d (2 ^ 23) Hd Hn23). fold m in H. lia. }
  (* below the largest finite number the exponent field stays below 255 *)
  assert (Hfin : ((e + 126) * 2 ^ 23 + m < infinity_bits)%Z).
  { assert (He127 : (e0 < 128)%Z).
    { apply pow2_lt_inv. apply (Qmult_lt_r _ _ (inject_Z q) HQq).
      eapply Qle_lt_trans; [exact Hlo|]. eapply Qle_lt_trans; [exact Hmax|].
      apply Qmult_lt_r; [exact HQq|]. unfold max_finite.
      rewrite <- pow2_inject by lia. rewrite <- Zlt_Qlt. reflexivity. }
    unfold infinity_bits. change (2 ^ 23)%Z with 8388608%Z.
    change (2 ^ 24)%Z with 16777216%Z in *.
    destruct (Z_lt_ge_dec e 127%Z) as [Hlt|Hge]; [lia|].
    assert (Hee : e = 127%Z) by (unfold e in *; lia).
    assert (Hnmax : (n <= (2 ^ 24 - 1) * d)%Z).
    { apply (scale_cmp_ge _ _ _ _ _ _ Hp Hq Hs). rewrite Hk, Hee.
      eapply Qle_trans; [exact Hmax|]. apply Qmult_le_compat_r; [|now apply Qlt_le_weak].
      unfold max_finite. rewrite inject_Z_mult, (pow2_inject 104) by lia.
      apply Qle_refl. }
    pose proof (round_half_even_le n d _ Hd Hnmax) as Hle. fold m in Hle.
    change (2 ^ 24 - 1)%Z with 16777215%Z in Hle. lia. }
  rewrite Z.min_l by lia. split; [exact Hfin|].
  destruct (value_significand e m He Hm24 Hsub Hfin) as (v & Hv & Hveq).
  exists v. split; [exact Hv|]. rewrite Hveq.
  (* the error is that of rounding the scaled fraction *)
  pose proof (round_half_even_bound n d Hd) as Hr. fold m in Hr.
  set (c := 2 ^ (e - 23)).
  assert (Hc : 0 < c) by apply pow2_pos.
  assert (Hc2 : c == 2 * 2 ^ (e - 24)).
  { unfold c. rewrite <- pow2_succ. now replace (e - 24 + 1)%Z with (e - 23)%Z by lia. }
  assert (Hx : inject_Z p / inject_Z q == inject_Z n / inject_Z d * c).
  { assert (Hinv : 2 ^ (23 - e) * c == 1).
    { unfold c. rewrite <- pow2_add. now replace (23 - e + (e - 23))%Z with 0%Z by lia. }
    assert (Hq0 : ¬ inject_Z q == 0) by (intros E; rewrite E in HQq; discriminate HQq).
    assert (Hd0 : ¬ inject_Z d == 0) by (intros E; rewrite E in HQd; discriminate HQd).
    transitivity (inject_Z p * (2 ^ (23 - e) * c) / inject_Z q);
      [rewrite Hinv; field; exact Hq0|].
    transitivity (inject_Z p * 2 ^ (23 - e) * inject_Z d * c / (inject_Z q * inject_Z d));
      [field; split; assumption|].
    rewrite <- Heq. field. split; assumption. }
  rewrite Hx.
  assert (Hfac : inject_Z m * c - inject_Z n / inject_Z d * c
                 == (inject_Z m - inject_Z n / inject_Z d) * c) by ring.
  rewrite Hfac, Qabs_Qmult, (Qabs_pos c) by (now apply Qlt_le_weak).
  assert (Hhalf : Qabs (inject_Z m - inject_Z n / inject_Z d) <= 1 # 2).
  { apply Qabs_Qle_condition.
    assert (Hr1 : (2 * (m * d) <= 2 * n + d)%Z) by lia.
    assert (Hr2 : (2 * n <= 2 * (m * d) + d)%Z) by lia.
    rewrite Zle_Qle in Hr1, Hr2.
    rewrite ?inject_Z_plus, ?inject_Z_mult in Hr1, Hr2.
    change (inject_Z 2) with 2 in Hr1, Hr2.
    split.
    - apply (Qmult_le_r _ _ (inject_Z d) HQd).
      assert (E : (inject_Z m - inject_Z n / inject_Z d) * inject_Z d
                  == inject_Z m * inject_Z d - inject_Z n)
        by (field; intros E; rewrite E in HQd; discriminate HQd).
      rewrite E. lra.
    - apply (Qmult_le_r _ _ (inject_Z d) HQd).
      assert (E : (inject_Z m - inject_Z n / inject_Z d) * inject_Z d
                  == inject_Z m * inject_Z d - inject_Z n)
        by (field; intros E; rewrite E in HQd; discriminate HQd).
      rewrite E. lra. }
  rewrite Hc2.
  apply Qle_trans with ((1 # 2) * (2 * 2 ^ (e - 24))).
  - apply Qmult_le_compat_r; [exact Hhalf|].
    pose proof (pow2_pos (e - 24)). lra.
  - apply Qle_lteq. right. ring.
Qed.


Lemma of_Q_range x : (0 <= of_Q x < 2 ^ 32)%Z.
Proof.
  unfold of_Q. destruct x as [[|p|p] q]; cbn [Qnum Qden].
  - split; [lia | reflexivity].
  - pose proof (of_pos_range (Z.pos p) (Z.pos q) ltac:(lia) ltac:(lia)) as H.
    unfold infinity_bits in H. change (2 ^ 32)%Z with 4294967296%Z. lia.
  - pose proof (of_pos_range (Z.pos p) (Z.pos q) ltac:(lia) ltac:(lia)) as H.
    unfold infinity_bits in H. change (2 ^ 32)%Z with 4294967296%Z.
    change (2 ^ 31)%Z with 2147483648%Z. lia.
Qed.

Lemma le_bytes_roundtrip bits :
  (0 <= bits < 2 ^ 32)%Z →
  from_le_bytes (to_le_bytes bits) = Some bits
  ∧ Forall (λ b, 0 <= b < 256)%Z (to_le_bytes bits).
Proof.
  intros H. unfold to_le_bytes, from_le_bytes.
  change (2 ^ 32)%Z with 4294967296%Z in H.
  change (2 ^ 8)%Z with 256%Z. change (2 ^ 16)%Z with 65536%Z.
  change (2 ^ 24)%Z with 16777216%Z.
  split.
  - f_equal. Z.div_mod_to_equations. lia.
  - repeat constructor; Z.div_mod_to_equations; lia.
Qed.

(** A non-negative number within the finite range converts to a finite
    pattern whose value is within half a unit in the last place of it. *)
Lemma of_Q_accurate x :
  0 <= x → x <= max_finite →
  ∃ v, value (of_Q x) = Some v ∧ Qabs (v - x) <= half_ulp x.
Proof.
  intros H0 Hmax. unfold of_Q, half_ulp. destruct x as [[|p|p] q]; cbn [Qnum Qden].
  - eexists. split; [reflexivity|]. apply Qabs_Qle_condition. split; discriminate.
  - assert (Hx : Z.pos p # q == inject_Z (Z.pos p) / inject_Z (Z.pos q))
      by apply Qmake_Qdiv.
    assert (HQq : 0 < inject_Z (Z.pos q)) by (apply inject_Z_pos; lia).
    destruct (of_pos_accurate (Z.pos p) (Z.pos q) ltac:(lia) ltac:(lia)) as (_ & v & Hv & Herr).
    + rewrite Hx in Hmax. apply (Qmult_le_r _ _ _ HQq) in Hmax.
      eapply Qle_trans; [|exact Hmax]. apply Qle_lteq. right. field.
      intros E. rewrite E in HQq. discriminate HQq.
    + exists v. split; [exact Hv|]. rewrite Hx. exact Herr.
  - exfalso. apply (Qle_not_lt _ _ H0). reflexivity.
Qed.

(** In the normal range half a unit in the last place is at most [2^-24]
    of the number: the relative precision of binary32. *)
Lemma half_ulp_relative x :
  2 ^ (-126) <= x → half_ulp x <= x * 2 ^ (-24).
Proof.
  intros Hx. unfold half_ulp. destruct x as [[|p|p] q]; cbn [Qnum Qden].
  - exfalso. apply (Qle_not_lt _ _ Hx). reflexivity.
  - destruct (ilog2_spec (Z.pos p) (Z.pos q) ltac:(lia) ltac:(lia)) as [Hlo Hhi].
    set (e := ilog2 (Z.pos p) (Z.pos q)) in *.
    assert (HQq : 0 < inject_Z (Z.pos q)) by (apply inject_Z_pos; lia).
    assert (Hq0 : ¬ inject_Z (Z.pos q) == 0) by (intros E; rewrite E in HQq; discriminate HQq).
    rewrite (Qmake_Qdiv (Z.pos p) q) in Hx |- *.
    assert (He : (-126 <= e)%Z).
    { cut (-126 < e + 1)%Z; [lia|]. apply pow2_lt_inv.
      apply (Qmult_lt_r _ _ _ HQq). eapply Qle_lt_trans; [|exact Hhi].
      apply (Qmult_le_r _ _ _ HQq) in Hx. eapply Qle_trans; [exact Hx|].
      apply Qle_lteq. right. field. exact Hq0. }
    rewrite Z.max_l by lia. replace (e - 24)%Z with (e + -24)%Z by lia.
    rewrite pow2_add. apply Qmult_le_compat_r; [|apply Qlt_le_weak, pow2_pos].
    apply Qle_shift_div_l; assumption.
  - exfalso. apply (Qle_not_lt _ _ Hx). reflexivity.
Qed.

(** In the subnormal range it is [2^-150], half the spacing [2^-149]. *)
Lemma half_ulp_subnormal x :
  x <= 2 ^ (-126) → half_ulp x <= 2 ^ (-150).
Proof.
  intros Hx. unfold half_ulp. destruct x as [[|p|p] q]; cbn [Qnum Qden];
    [apply Qle_refl | | apply Qle_refl].
  destruct (ilog2_spec (Z.pos p) (Z.pos q) ltac:(lia) ltac:(lia)) as [Hlo _].
  set (e := ilog2 (Z.pos p) (Z.pos q)) in *.
  assert (HQq : 0 < inject_Z (Z.pos q)) by (apply inject_Z_pos; lia).
  assert (Hq0 : ¬ inject_Z (Z.pos q) == 0) by (intros E; rewrite E in HQq; discriminate HQq).
  rewrite (Qmake_Qdiv (Z.pos p) q) in Hx.
  assert (He : (e <= -126)%Z).
  { apply (Qpower_le_compat_l_inv 2); [|reflexivity].
    apply (Qmult_le_r _ _ _ HQq). eapply Qle_trans; [exact Hlo|].
    apply (Qmult_le_r _ _ _ HQq) in Hx. eapply Qle_trans; [|exact Hx].
    apply Qle_lteq. right. field. exact Hq0. }
  rewrite Z.max_r by lia. apply Qle_refl.
Qed.

End Float32Properties.

(** ** The intent wire format *)

Section IntentProperties.
Import Intent.
Local Open Scope Q_scope.

Lemma class_tag_roundtrip c : class_of_tag (class_tag c) = Some c.
Proof. destruct c; reflexivity. Qed.

Lemma class_tag_range c : (0 <= class_tag c <= 4)%Z.
Proof. destruct c; cbn; lia. Qed.

Lemma i8_byte_roundtrip n :
  (-128 <= n <= 127)%Z → is_byte (i8_to_byte n) ∧ byte_to_i8 (i8_to_byte n) = n.
Proof.
  intros H. unfold is_byte, i8_to_byte, byte_to_i8.
  destruct (Z.ltb_spec (n mod 256) 128); Z.div_mod_to_equations; lia.
Qed.

(** Either rounding moves a number by at most 1 and keeps it within integer
    bounds it was within. *)
Lemma round_with_bound mode (y : Q) (K : Z) :
  - inject_Z K <= y → y <= inject_Z K →
  (- K <= round_with mode y <= K)%Z
  ∧ inject_Z (round_with mode y) - 1 <= y ∧ y <= inject_Z (round_with mode y) + 1.
Proof.
  destruct y as [p q]. unfold Qle, Qminus, Qplus, Qopp. cbn [Qnum Qden inject_Z].
  intros Hlo Hhi. pose proof (Pos2Z.is_pos q) as Hq.
  destruct mode; cbn [round_with Qnum Qden].
  - Z.to_euclidean_division_equations. nia.
  - destruct (Z.sgn_spec p) as [[Hp ->] | [[Hp ->] | [Hp ->]]].
    + rewrite Z.abs_eq by lia. Z.div_mod_to_equations. nia.
    + subst p. cbn [Z.abs Z.mul Z.add]. Z.div_mod_to_equations. nia.
    + rewrite Z.abs_neq by lia. Z.div_mod_to_equations. nia.
Qed.

(** A component in [-1, 1] is stored in one byte and read back within
    [1/127]. *)
Lemma quantize_error mode x :
  in_unit_range x →
  is_byte (i8_to_byte (quantize mode x))
  ∧ Qabs (dequantize (i8_to_byte (quantize mode x)) - x) <= 1 # 127.
Proof.
  intros [Hlo Hhi]. unfold quantize, dequantize.
  destruct (round_with_bound mode (127 * x) 127) as (Hn & Hn1 & Hn2);
    [change (inject_Z 127) with 127; lra ..|].
  set (n := round_with mode (127 * x)) in *.
  assert (Hsat : saturate_i8 n = n) by (unfold saturate_i8; lia).
  rewrite Hsat. destruct (i8_byte_roundtrip n ltac:(lia)) as [Hb ->].
  split; [exact Hb|]. apply Qabs_Qle_condition.
  assert (E : inject_Z n / 127 == inject_Z n * (1 # 127)) by reflexivity.
  rewrite E. split; lra.
Qed.


(** C5. Decoding the 8-byte packed form of an intent record (direction
    components in [-1, 1], as those of a unit vector are, and a non-negative
    magnitude) yields the same class, each direction component within
    [1/127], and the magnitude as the binary32 number nearest to it.  For a
    magnitude in the finite range of binary32 that number is within float32
    precision of it: a relative error of at most [2^-24] in the normal
    range, an absolute error of at most [2^-150] below it.  This holds for
    both roundings of the direction. *)
Theorem intent_pack_roundtrip mode (r : IntentRecord) :
  in_unit_range (direction r).1.1 → in_unit_range (direction r).1.2 →
  in_unit_range (direction r).2 → 0 <= magnitude r →
  length (pack mode r) = 8%nat
  ∧ Forall is_byte (pack mode r)
  ∧ ∃ d, unpack (pack mode r) = Some d
      ∧ d_class d = class r
      ∧ Qabs ((d_direction d).1.1 - (direction r).1.1) <= 1 # 127
      ∧ Qabs ((d_direction d).1.2 - (direction r).1.2) <= 1 # 127
      ∧ Qabs ((d_direction d).2 - (direction r).2) <= 1 # 127
      ∧ d_magnitude d = Float32.of_Q (magnitude r)
      ∧ (magnitude r <= Float32.max_finite →
           ∃ v, Float32.value (d_magnitude d) = Some v
                ∧ (2 ^ (-126) <= magnitude r →
                     Qabs (v - magnitude r) <= magnitude r * 2 ^ (-24))
                ∧ (magnitude r <= 2 ^ (-126) →
                     Qabs (v - magnitude r) <= 2 ^ (-150))).
Proof.
  destruct r as [c [[x y] z] m]. cbn [direction magnitude class fst snd].
  intros Hx Hy Hz Hm.
  destruct (quantize_error mode x Hx) as [Hbx Hex].
  destruct (quantize_error mode y Hy) as [Hby Hey].
  destruct (quantize_error mode z Hz) as [Hbz Hez].
  destruct (le_bytes_roundtrip (Float32.of_Q m) (of_Q_range m)) as [Hle Hbm].
  unfold pack. cbn [direction magnitude class].
  split; [reflexivity|]. split.
  - apply Forall_app. split; [|exact Hbm].
    constructor; [unfold is_byte; pose proof (class_tag_range c); lia|].
    constructor; [exact Hbx|]. constructor; [exact Hby|]. constructor; [exact Hbz|].
    constructor.
  - unfold Float32.to_le_bytes in *. cbn [app unpack].
    rewrite class_tag_roundtrip. cbn [mbind option_bind].
    rewrite Hle. cbn [mbind option_bind].
    eexists. split; [reflexivity|]. cbn [d_class d_direction d_magnitude fst snd].
    split; [reflexivity|]. split; [exact Hex|]. split; [exact Hey|]. split; [exact Hez|].
    split; [reflexivity|].
    intros Hmax. destruct (of_Q_accurate m Hm Hmax) as (v & Hv & Herr).
    exists v. split; [exact Hv|]. split; intros Hrange.
    + eapply Qle_trans; [exact Herr | now apply half_ulp_relative].
    + eapply Qle_trans; [exact Herr | now apply half_ulp_subnormal].
Qed.

End IntentProperties.

(** The record of a reach along the unit vector [(3/5, 4/5, 0)] over 0.99 m. *)
Lemma intent_pack_roundtrip_witness :
  ∃ d, Intent.unpack (Intent.pack Intent.toward_zero
                        (Intent.mkIntent Intent.reach (3 # 5, 4 # 5, 0)%Q (99 # 100)))
       = Some d
     ∧ Intent.d_class d = Intent.reach
     ∧ Intent.d_magnitude d = 0x3F7D70A4%Z.
Proof.
  destruct (intent_pack_roundtrip Intent.toward_zero
              (Intent.mkIntent Intent.reach (3 # 5, 4 # 5, 0)%Q (99 # 100)))
    as (_ & _ & d & Hd & Hc & _ & _ & _ & Hm & _).
  - split; discriminate.
  - split; discriminate.
  - split; discriminate.
  - discriminate.
  - exists d. split; [exact Hd|]. split; [exact Hc|]. rewrite Hm. reflexivity.
Defined.

(** * Further properties of the sources *)

(** ** The kinematics store: how the actions compose *)

Section StoreComposition.
Context {V : Type}.
Implicit Types (s : Store.KinematicsState V) (acts : list (Store.Action V))
  (a : Store.Action V).

Lemma dispatch_set s a : Store.dispatch s a = Store.set (Store.partial_of a) s.
Proof. destruct a; reflexivity. Qed.

Lemma run_snoc acts a s :
  Store.run (acts ++ [a]) s = Store.dispatch (Store.run acts s) a.
Proof. rewrite run_app. reflexivity. Qed.

(** The last value a sequence of partial updates assigns to a field. *)
Lemma last_omap_snoc {A B} (f : A → option B) (l : list A) (x : A) :
  last (omap f (l ++ [x])%list) = match f x with Some y => Some y | None => last (omap f l) end.
Proof.
  rewrite omap_app. cbn. destruct (f x) as [y|]; cbn.
  - apply last_snoc.
  - now rewrite app_nil_r.
Qed.

(** After any sequence of calls each field holds the value of the most
    recent call that assigned it ([reset] assigns all three), and its old
    value if no call did. *)
Theorem store_last_write_wins acts s :
  Store.chain (Store.run acts s)
  = default (Store.chain s) (last (omap (λ a, Store.p_chain (Store.partial_of a)) acts))
  ∧ Store.result (Store.run acts s)
    = default (Store.result s) (last (omap (λ a, Store.p_result (Store.partial_of a)) acts))
  ∧ Store.loading (Store.run acts s)
    = default (Store.loading s)
        (last (omap (λ a, Store.p_loading (Store.partial_of a)) acts)).
Proof.
  induction acts as [|a acts IH] using rev_ind; [repeat split|].
  destruct IH as (IHc & IHr & IHl).
  rewrite run_snoc, dispatch_set, !last_omap_snoc. unfold Store.set. cbn.
  destruct a; cbn; auto.
Qed.

(** Calls before a [reset] do not matter for what comes after it. *)
Theorem store_reset_forgets_history acts acts' s :
  Store.run (acts ++ Store.Reset :: acts') s = Store.run acts' Store.initial.
Proof.
  rewrite run_app. change (Store.Reset :: acts') with ([Store.Reset] ++ acts')%list.
  rewrite run_app. cbn [Store.run foldl Store.dispatch]. now rewrite reset_is_initial.
Qed.

(** Setters of different fields commute, a setter overrides an earlier call
    of itself, and setting a field to the value it has changes nothing. *)
Theorem store_setters_compose s :
  (∀ c r, Store.setChain c (Store.setResult r s) = Store.setResult r (Store.setChain c s))
  ∧ (∀ c l, Store.setChain c (Store.setLoading l s) = Store.setLoading l (Store.setChain c s))
  ∧ (∀ r l, Store.setResult r (Store.setLoading l s) = Store.setLoading l (Store.setResult r s))
  ∧ (∀ c c', Store.setChain c' (Store.setChain c s) = Store.setChain c' s)
  ∧ (∀ r r', Store.setResult r' (Store.setResult r s) = Store.setResult r' s)
  ∧ (∀ l l', Store.setLoading l' (Store.setLoading l s) = Store.setLoading l' s)
  ∧ Store.setChain (Store.chain s) s = s
  ∧ Store.setResult (Store.result s) s = s
  ∧ Store.setLoading (Store.loading s) s = s.
Proof. destruct s as [c0 r0 l0]. repeat split. Qed.

End StoreComposition.

(** ** The API client: headers, outcomes and what is sent *)

Section ClientBehaviour.
Context {Json : Type}.
Variable env_API_URL : option string.
Variable fetch : string -> Client.RequestInit -> Promise Client.Response.
Variable JSON_parse : string -> option Json.
Variable syntax_error_message : string -> string.
Variable JSON_stringify : Json -> string.

Local Abbreviation request :=
  (Client.request env_API_URL fetch JSON_parse syntax_error_message).
Local Abbreviation request_args := (Client.request_args JSON_stringify).

(** The headers [request] sends: every header of the caller as given, and
    [Content-Type: application/json] unless the caller sets that header;
    nothing else. *)
Theorem request_headers_merge options k :
  Client.headers (Client.request_init options) !! k
  = match options ≫= λ o, Client.headers o !! k with
    | Some v => Some v
    | None => if decide (k = "Content-Type") then Some "application/json" else None
    end.
Proof.
  unfold Client.request_init. cbn [Client.headers]. rewrite lookup_union.
  destruct options as [o|]; cbn [from_option mbind option_bind].
  - destruct (Client.headers o !! k) as [v|] eqn:Hk; cbn.
    + now destruct ({[ "Content-Type" := "application/json" ]} !! k).
    + rewrite (left_id None _). case_decide as Hd.
      * subst k. apply lookup_singleton_eq.
      * now apply lookup_singleton_ne.
  - rewrite lookup_empty, (left_id None _). case_decide as Hd.
    + subst k. apply lookup_singleton_eq.
    + now apply lookup_singleton_ne.
Qed.

(** [request] resolves only with the parsed body of a response whose status
    is in 200-299; it rejects with the network's error when [fetch] fails,
    with [Error('API error: <status>')] on any other status, and with the
    [SyntaxError] of the runtime's parser, whatever its message for that
    body, when an ok body is not JSON. *)
Theorem request_outcomes path options :
  let sent := fetch (Client.API_URL env_API_URL ++ path) (Client.request_init options) in
  (∀ v, request path options = Resolved v
        ↔ ∃ res, sent = Resolved res ∧ Client.ok res = true
                 ∧ JSON_parse (Client.text res) = Some v)
  ∧ (∀ e, request path options = Rejected e
          ↔ sent = Rejected e
            ∨ ∃ res, sent = Resolved res
                ∧ ((Client.ok res = false
                    ∧ e = Error ("API error: " ++ pretty (Client.status res)))
                   ∨ (Client.ok res = true ∧ JSON_parse (Client.text res) = None
                      ∧ e = SyntaxError (syntax_error_message (Client.text res))))).
Proof.
  intros sent. unfold Client.request. fold sent.
  destruct sent as [res|e0]; cbn [await]; unfold Client.on_response, Client.json.
  - destruct (Client.ok res) eqn:Hok; cbn [negb];
      [destruct (JSON_parse (Client.text res)) as [v0|] eqn:Hp|].
    + split.
      * intros v. split.
        -- intros [= <-]. exists res. auto.
        -- intros (res' & [= <-] & _ & Hv). congruence.
      * intros e. split; [intros [=]|].
        intros [[=] | (res' & [= <-] & [[Hf _] | (_ & Hn & _)])]; congruence.
    + split.
      * intros v. split; [intros [=]|].
        intros (res' & [= <-] & _ & Hv). congruence.
      * intros e. split.
        -- intros [= <-]. right. exists res. split; [reflexivity|]. right. auto.
        -- intros [[=] | (res' & [= <-] & [[Hf _] | (_ & _ & ->)])];
             [congruence | reflexivity].
    + split.
      * intros v. split; [intros [=]|].
        intros (res' & [= <-] & Ht & _). congruence.
      * intros e. split.
        -- intros [= <-]. right. exists res. split; [reflexivity|]. left. auto.
        -- intros [[=] | (res' & [= <-] & [[_ ->] | (Ht & _)])];
             [reflexivity | congruence].
  - split.
    + intros v. split; [intros [=]|]. intros (res & [=] & _).
    + intros e. split.
      * intros [= <-]. now left.
      * intros [[= <-] | (res & [=] & _)]. reflexivity.
Qed.

(** What the operations of [api] hand to [fetch]: the only header is
    [Content-Type: application/json], in particular no [X-API-Key]; the four
    POST operations carry [JSON.stringify] of their argument, the three GET
    operations no method and no body. *)
Theorem api_request_contents (op : Client.Operation Json) :
  let init := Client.request_init (request_args op).2 in
  Client.headers init = {[ "Content-Type" := "application/json" ]}
  ∧ Client.headers init !! "X-API-Key" = None
  ∧ match op with
    | Client.solveIk b | Client.solveFk b | Client.compressIntent b
    | Client.optimizeTrajectory b =>
        Client.method init = Some "POST" ∧ Client.body init = Some (JSON_stringify b)
    | Client.health | Client.chains | Client.stats =>
        Client.method init = None ∧ Client.body init = None
    end.
Proof.
  intros init.
  assert (Hh : Client.headers init = {[ "Content-Type" := "application/json" ]}).
  { unfold init, Client.request_init. cbn [Client.headers].
    destruct op; cbn [Client.request_args Client.post snd from_option Client.headers];
      apply (left_id ∅ (∪)). }
  split; [exact Hh|]. split; [rewrite Hh; now apply lookup_singleton_ne|].
  destruct op; split; reflexivity.
Qed.

End ClientBehaviour.

(** ** The console page: requests, lifecycle and display *)

Lemma split_length sep s : length (Js.split sep s) = S (Js.count sep s).
Proof.
  induction s as [|c s IH]; [reflexivity|]. cbn [Js.split Js.count].
  destruct (decide (c = sep)); cbn [length Nat.add]; [now rewrite IH|].
  destruct (Js.split sep s) as [|piece rest]; [discriminate IH | exact IH].
Qed.

Lemma split_join sep s : Js.join sep (Js.split sep s) = s.
Proof.
  induction s as [|c s IH]; [reflexivity|]. cbn [Js.split].
  destruct (decide (c = sep)) as [->|Hne].
  - pose proof (split_length sep s) as Hlen.
    destruct (Js.split sep s) as [|piece rest]; [discriminate Hlen|].
    cbn [Js.join] in *. cbn. now rewrite IH.
  - pose proof (split_length sep s) as Hlen.
    destruct (Js.split sep s) as [|piece rest]; [discriminate Hlen|].
    destruct rest as [|piece' rest]; cbn [Js.join] in *; cbn; now rewrite <- IH.
Qed.


Section PageProperties.
Context {float : Type}.
Variable lit : Q -> float.
Variable of_index : nat -> float.
Variable mul : float -> float -> float.
Variables Math_sin Math_cos : float -> float.
Variable Number : string -> float.
Variable number_truthy : float -> bool.
Variable JSON_stringify : Js.Json float -> string.
Variable JSON_parse : string -> option (Js.Json float).
Variable syntax_error_message : string -> string.
Variable env_API_URL : option string.

Implicit Types (st : Page.State float) (b : Page.Button).

Local Abbreviation numbers := (Page.numbers Number).
Local Abbreviation button_request :=
  (Page.button_request lit of_index mul Math_sin Math_cos Number JSON_stringify).
Local Abbreviation client_operation :=
  (Page.client_operation lit of_index mul Math_sin Math_cos Number).
Local Abbreviation settled := (Page.settled JSON_parse syntax_error_message).
Local Abbreviation finish := (Page.finish JSON_parse syntax_error_message).
Local Abbreviation step :=
  (Page.step lit of_index mul Math_sin Math_cos Number JSON_stringify JSON_parse
     syntax_error_message env_API_URL).
Local Abbreviation run :=
  (Page.run lit of_index mul Math_sin Math_cos Number JSON_stringify JSON_parse
     syntax_error_message env_API_URL).
Local Abbreviation view := (Page.view number_truthy).



(** Every button sends the method, the path and the body that the API
    client's operation for the same endpoint sends, a row of the endpoint
    table; unlike the client it always adds [X-API-Key: demo], and its GET
    carries no [Content-Type]. *)
Theorem console_requests_match_client b st :
  let path := (button_request b st).1 in
  let init := (button_request b st).2 in
  let sent := Client.request_init (Client.request_args JSON_stringify (client_operation b st)).2 in
  (Client.http_method init, path) = Client.request_line JSON_stringify (client_operation b st)
  ∧ (Client.http_method init, path) ∈ Client.endpoint_table
  ∧ Client.body init = Client.body sent
  ∧ Client.headers init !! "X-API-Key" = Some "demo"
  ∧ Client.headers sent !! "X-API-Key" = None
  ∧ Client.headers init !! "Content-Type"
    = match b with Page.LoadChains => None | _ => Some "application/json" end.
Proof.
  intros path init sent.
  assert (Hline : (Client.http_method init, path)
                  = Client.request_line JSON_stringify (client_operation b st))
    by (destruct b; reflexivity).
  split; [exact Hline|]. split.
  - rewrite Hline. apply list_elem_of_lookup.
    exists (Client.table_row (client_operation b st)). destruct b; reflexivity.
  - split; [destruct b; reflexivity|].
    split; [destruct b; reflexivity|].
    split; [|destruct b; reflexivity].
    unfold sent. destruct b; reflexivity.
Qed.

(** A click run to completion always ends with [loading = false] and leaves
    the tab and the inputs alone.  The result is the parsed body of the
    response whatever its status, so a 400 [{error}] body is stored too; it
    is [{error: message}] when the network fails or the body is not JSON. *)
Theorem console_click_and_wait fetch b st :
  let st' := Page.click_and_wait lit of_index mul Math_sin Math_cos Number JSON_stringify
               JSON_parse syntax_error_message env_API_URL fetch b st in
  let sent := fetch (Page.url env_API_URL (button_request b st).1) (button_request b st).2 in
  Page.loading st' = false
  ∧ Page.setResult (Page.result st) (Page.setLoading (Page.loading st) st') = st
  ∧ (∀ res v, sent = Resolved res → JSON_parse (Client.text res) = Some v →
       Page.result st' = v)
  ∧ (∀ res, sent = Resolved res → JSON_parse (Client.text res) = None →
       ∃ m, Page.result st' = Js.JObject [("error", Js.JString m)])
  ∧ (∀ e, sent = Rejected e →
       Page.result st' = Js.JObject [("error", Js.JString (Js.message e))]).
Proof.
  intros st' sent.
  assert (Hst' : st' = finish sent (Page.begin st)).
  { unfold st', Page.click_and_wait, sent. now destruct (button_request b st). }
  rewrite Hst'. clearbody st' sent.
  split; [reflexivity|]. split; [destruct st; reflexivity|].
  unfold Page.finish, Page.settled, Client.json. cbn [Page.result Page.setLoading Page.setResult].
  split; [|split].
  - intros res v -> Hv. cbn [await]. now rewrite Hv.
  - intros res -> Hv. cbn [await]. rewrite Hv. eexists. reflexivity.
  - intros e ->. reflexivity.
Qed.

(** The invariant of the page under any sequence of events. *)
Lemma step_in_flight (w : Page.World) (e : Page.Event) :
  (length (Page.in_flight w) ≤ 1
   ∧ (Page.loading (Page.ui w) = true ↔ Page.in_flight w ≠ [])) →
  length (Page.in_flight (step w e)) ≤ 1
  ∧ (Page.loading (Page.ui (step w e)) = true ↔ Page.in_flight (step w e) ≠ []).
Proof.
  destruct w as [st pending]. cbn [Page.in_flight Page.ui]. intros [Hlen Hiff].
  destruct e as [t | f v | b | outcome]; cbn [Page.step Page.in_flight Page.ui].
  - cbn [Page.in_flight Page.ui]. split; [exact Hlen|].
    destruct st; exact Hiff.
  - case_decide; cbn [Page.in_flight Page.ui]; [|split; assumption].
    split; [exact Hlen|]. destruct st, f; exact Hiff.
  - case_decide; cbn [Page.in_flight Page.ui]; [|split; assumption].
    destruct (Page.loading st) eqn:Hl; rewrite ?Hl in Hiff; cbn [Page.in_flight Page.ui];
      [split; [exact Hlen | now rewrite Hl]|].
    assert (Hnil : pending = []).
    { destruct pending as [|x xs]; [reflexivity|].
      assert (Ht : false = true) by (apply Hiff; discriminate). discriminate Ht. }
    subst pending. cbn. split; [lia|]. split; [discriminate | reflexivity].
  - destruct pending as [|x rest]; cbn [Page.in_flight Page.ui]; [split; assumption|].
    cbn [length] in Hlen. destruct rest as [|y rest]; [|cbn [length] in Hlen; lia].
    cbn. split; [lia|]. split; [discriminate | congruence].
Qed.

(** Whatever the user does and whenever responses arrive, at most one
    request is in flight, and [loading] is true exactly while one is: the
    request buttons are disabled from the click to the response. *)
Theorem console_one_request_in_flight (events : list Page.Event) :
  length (Page.in_flight (run events)) ≤ 1
  ∧ (Page.loading (Page.ui (run events)) = true ↔ Page.in_flight (run events) ≠ []).
Proof.
  unfold Page.run. induction events as [|e events IH] using rev_ind.
  - cbn. split; [lia|]. split; [discriminate | congruence].
  - rewrite foldl_app. cbn [foldl]. apply step_in_flight. exact IH.
Qed.

(** Switching tabs while a request is in flight clears the result but does
    not cancel the request: when its response arrives it is stored and
    [loading] ends, under the tab selected by then. *)
Theorem console_late_response_is_stored (w : Page.World) t outcome :
  Page.in_flight w ≠ [] →
  let w' := step (step w (Page.ClickTab t)) (Page.Settle outcome) in
  Page.tab (Page.ui w') = t
  ∧ Page.result (Page.ui (step w (Page.ClickTab t))) = Js.JNull
  ∧ Page.result (Page.ui w') = settled outcome
  ∧ Page.loading (Page.ui w') = false
  ∧ Page.in_flight w' = tail (Page.in_flight w).
Proof.
  destruct w as [st pending]. cbn [Page.in_flight]. intros Hne.
  destruct pending as [|x rest]; [congruence|].
  cbn. repeat split.
Qed.

(** What a render selects.  A result panel and the error line are never
    selected together.  After a failed request the error line shows the
    message of the error; after a response whose body is an object with an
    [error] field, whatever its status, it shows that field and no panel;
    an object without one selects the panel of the tab.  A result that is a
    non-empty string or [true] makes the conditions throw. *)
Theorem console_view_of_errors st :
  (∀ p e, view st ≠ Page.Shows (Some p) (Some e))
  ∧ (∀ e, view (finish (Rejected e) st)
          = Page.Shows None (Some (Some (Js.JString (Js.message e)))))
  ∧ (∀ res fields, JSON_parse (Client.text res) = Some (Js.JObject fields) →
       "error" ∈ fields.*1 →
       ∃ v, Js.get "error" (Js.JObject fields) = Some v
            ∧ view (finish (Resolved res) st) = Page.Shows None (Some (Some v)))
  ∧ (∀ res fields, JSON_parse (Client.text res) = Some (Js.JObject fields) →
       "error" ∉ fields.*1 → Page.tab st ≠ Page.chains →
       ∃ p, view (finish (Resolved res) st) = Page.Shows (Some p) None)
  ∧ (∀ res s, JSON_parse (Client.text res) = Some (Js.JString s) → s ≠ "" →
       view (finish (Resolved res) st) = Page.Throws)
  ∧ (∀ res, JSON_parse (Client.text res) = Some (Js.JBool true) →
       view (finish (Resolved res) st) = Page.Throws).
Proof.
  split; [|split; [|split; [|split; [|split]]]].
  - intros p e. unfold Page.view.
    destruct (Page.truthy number_truthy (Page.result st)); [|discriminate].
    destruct (Js.error_in (Page.result st)) as [[|]|] eqn:He; try discriminate.
    destruct (Page.result st); try discriminate He.
    destruct (Page.tab st); discriminate.
  - intros e. destruct st as [[] ? ? ? ? ? ? ? ? ? ?]; reflexivity.
  - intros res fields Hp Hin.
    assert (Hget : ∃ v, Js.get "error" (Js.JObject fields) = Some v).
    { cbn [Js.get]. apply list_elem_of_fmap in Hin as ([k v] & Hk & Hin). cbn in Hk. subst k.
      destruct (filter (λ kv : string * Js.Json float, kv.1 = "error") fields) as [|kv rest] eqn:Hf.
      - exfalso. assert (Hm : ("error", v) ∈ filter (λ kv : string * Js.Json float, kv.1 = "error") fields)
          by (apply list_elem_of_filter; split; [reflexivity | exact Hin]).
        rewrite Hf in Hm. inversion Hm.
      - exists kv.2. reflexivity. }
    destruct Hget as [v Hv]. exists v. split; [exact Hv|].
    unfold Page.view, Page.finish, Page.settled, Client.json.
    cbn [await Page.result Page.setLoading Page.setResult]. rewrite Hp.
    cbn [Page.truthy Js.error_in]. rewrite bool_decide_eq_true_2 by exact Hin.
    rewrite Hv. cbn [Page.tab Page.setLoading Page.setResult Js.isArray].
    now destruct (Page.tab st).
  - intros res fields Hp Hnin Htab.
    unfold Page.view, Page.finish, Page.settled, Client.json.
    cbn [await Page.result Page.setLoading Page.setResult]. rewrite Hp.
    cbn [Page.truthy Js.error_in]. rewrite bool_decide_eq_false_2 by exact Hnin.
    cbn [Page.tab Page.setLoading Page.setResult].
    destruct (Page.tab st); try congruence; eexists; reflexivity.
  - intros res s Hp Hs.
    unfold Page.view, Page.finish, Page.settled, Client.json.
    cbn [await Page.result Page.setLoading Page.setResult]. rewrite Hp.
    cbn [Page.truthy Js.error_in]. destruct s; [congruence | reflexivity].
  - intros res Hp.
    unfold Page.view, Page.finish, Page.settled, Client.json.
    cbn [await Page.result Page.setLoading Page.setResult]. now rewrite Hp.
Qed.

End PageProperties.

(** ** The console's sample generator *)

Section GeneratorProperties.
Context {float : Type}.
Variable lit : Q -> float.
Variable of_index : nat -> float.
Variable mul : float -> float -> float.
Variables Math_sin Math_cos : float -> float.

Local Abbreviation body := (Console.intent_body lit of_index mul Math_sin Math_cos).

(** Every generated sample has a position of three coordinates; consecutive
    timestamps are 10 ms apart, the period of the declared [sample_rate_hz]
    of 100 ([10 ms * 100 = 1 s]). *)
Theorem console_samples_shape :
  (∀ i s, Console.samples (Console.intent_body lit of_index mul Math_sin Math_cos) !! i
          = Some s →
     length (Console.position s) = 3 ∧ Console.timestamp_ms s = (10 * Z.of_nat i)%Z)
  ∧ (∀ i s s', Console.samples body !! i = Some s → Console.samples body !! S i = Some s' →
       (Console.timestamp_ms s' - Console.timestamp_ms s = 10)%Z)
  ∧ (inject_Z 10 * Console.sample_rate_hz body == 1000)%Q.
Proof.
  assert (Hat : ∀ i s, Console.samples body !! i = Some s →
                  s = Console.sample_at lit of_index mul Math_sin Math_cos i).
  { intros i s. unfold Console.intent_body, Console.Array_from. cbn [Console.samples].
    rewrite list_lookup_fmap. destruct (seq 0 100 !! i) as [j|] eqn:Hj; [|discriminate].
    apply lookup_seq in Hj as [-> _]. now intros [= <-]. }
  split; [|split; [|reflexivity]].
  - intros i s Hs. rewrite (Hat i s Hs). split; [reflexivity | cbn; lia].
  - intros i s s' Hs Hs'. rewrite (Hat i s Hs), (Hat (S i) s' Hs'). cbn. lia.
Qed.

End GeneratorProperties.

(** ** The domain tables: running the migration and writing rows *)

Section SchemaWrites.
Import Schema.
Context {D : Domains}.

Lemma exec_table_exists db n cols :
  is_relation db n = true → exec db (create_table_if_not_exists n cols) = Some db.
Proof. intros H. cbn [exec]. now rewrite H. Qed.

Lemma create_index_taken db i t c :
  is_relation db (index_name t i) = true → exec db (create_index i t c) = None.
Proof. intros H. cbn [exec]. now rewrite H. Qed.

(** The migration cannot be run twice: its [create table if not exists]
    statements skip the tables that exist, but the first [create index] has
    no [if not exists] and fails on the index the first run created. *)
Theorem migration_not_rerunnable db0 db :
  exec_all db0 migration_006 = Some db →
  exec_all db migration_006 = None
  ∧ exec db (create_table_if_not_exists "public.kinematic_chains" kinematic_chains_columns)
    = Some db
  ∧ exec db (create_table_if_not_exists "public.ik_solver_jobs" ik_solver_jobs_columns)
    = Some db
  ∧ exec db (create_index "idx_kinematic_chains_user" "public.kinematic_chains" "user_id")
    = None.
Proof.
  unfold migration_006 at 1. cbn [exec_all].
  destruct (exec db0 (create_table_if_not_exists "public.kinematic_chains" _))
    as [db1|] eqn:H1; [|intros H; discriminate H]. cbn [mbind option_bind].
  destruct (exec db1 (create_table_if_not_exists "public.ik_solver_jobs" _))
    as [db2|] eqn:H2; [|intros H; discriminate H]. cbn [mbind option_bind].
  destruct (exec db2 (create_index "idx_kinematic_chains_user" _ _)) as [db3|] eqn:H3;
    [|intros H; discriminate H]. cbn [mbind option_bind].
  destruct (exec db3 (create_index "idx_ik_solver_jobs_chain" _ _)) as [db4|] eqn:H4;
    [|intros H; discriminate H]. cbn [mbind option_bind].
  destruct (exec db4 (create_index "idx_ik_solver_jobs_user" _ _)) as [db5|] eqn:H5;
    [|intros H; discriminate H]. cbn [mbind option_bind].
  intros [= <-].
  apply exec_create_index_inv in H3 as (_ & (tc & Hc & _) & ->).
  apply exec_create_index_inv in H4 as (_ & (tj & Hj & _) & ->).
  apply exec_create_index_inv in H5 as (_ & _ & ->).
  change (index_name "public.kinematic_chains" "idx_kinematic_chains_user")
    with "public.idx_kinematic_chains_user" in *.
  cbn [tables indexes] in *.
  set (db5 := mkDb _ _).
  assert (Hrc : is_relation db5 "public.kinematic_chains" = true)
    by exact (is_relation_table db5 _ _ Hc).
  assert (Hrj : is_relation db5 "public.ik_solver_jobs" = true)
    by exact (is_relation_table db5 _ _ Hj).
  assert (Hidx : exec db5 (create_index "idx_kinematic_chains_user"
                             "public.kinematic_chains" "user_id") = None).
  { apply create_index_taken.
    apply (is_relation_index db5 _ ("public.kinematic_chains", "user_id")).
    unfold db5. cbn [indexes].
    rewrite !lookup_insert_ne by discriminate. apply lookup_insert_eq. }
  split; [|split; [now apply exec_table_exists
                  |split; [now apply exec_table_exists | exact Hidx]]].
  unfold migration_006. cbn [exec_all].
  rewrite (exec_table_exists _ _ _ Hrc). cbn [mbind option_bind].
  rewrite (exec_table_exists _ _ _ Hrj). cbn [mbind option_bind].
  now rewrite Hidx.
Qed.

(** On a database without the two tables, a run of the migration that
    succeeds has found [auth.users] with its [id] and the names of its three
    indexes free; it has added the two tables, empty, and the three indexes,
    and has left every other table and every index that existed as it was.
    So the migration fails when [auth.users] is missing, and when a table or
    an index bears the name of one of its indexes. *)
Theorem migration_effect db0 :
  fresh db0 →
  (∀ db, exec_all db0 migration_006 = Some db →
     (∃ users, tables db0 !! "auth.users" = Some users ∧ has_column users "id" = true)
     ∧ (∀ i, i ∈ migration_index_names → is_relation db0 i = false)
     ∧ tables db = <["public.ik_solver_jobs" := mkTable ik_solver_jobs_columns []]>
                     (<["public.kinematic_chains" := mkTable kinematic_chains_columns []]>
                        (tables db0))
     ∧ indexes db !! "public.idx_kinematic_chains_user"
       = Some ("public.kinematic_chains", "user_id")
     ∧ indexes db !! "public.idx_ik_solver_jobs_chain"
       = Some ("public.ik_solver_jobs", "chain_id")
     ∧ indexes db !! "public.idx_ik_solver_jobs_user"
       = Some ("public.ik_solver_jobs", "user_id")
     ∧ (∀ i x, indexes db0 !! i = Some x → indexes db !! i = Some x))
  ∧ (tables db0 !! "auth.users" = None → exec_all db0 migration_006 = None)
  ∧ (∀ i, i ∈ migration_index_names → is_relation db0 i = true →
       exec_all db0 migration_006 = None).
Proof.
  intros Hfresh. split; [|split].
  - intros db Hm.
    destruct (migration_inversion db0 db Hfresh Hm) as ((users & Hu & Hkey) & Hfree & Ht & Hi).
    split.
    { exists users. split; [exact Hu|]. unfold has_column. apply bool_decide_eq_true.
      apply existsb_exists in Hkey as (k & Hk & Hid).
      apply andb_true_iff in Hid as [Hid _]. apply bool_decide_eq_true in Hid.
      rewrite <- Hid. apply list_elem_of_fmap. exists k. split; [reflexivity|].
      now apply list_elem_of_In. }
    split; [intros i Hin; rewrite Forall_forall in Hfree; now apply Hfree|].
    split; [exact Ht|]. rewrite Hi.
    split; [now rewrite !lookup_insert_ne, lookup_insert_eq by discriminate|].
    split; [now rewrite lookup_insert_ne, lookup_insert_eq by discriminate|].
    split; [now rewrite lookup_insert_eq|].
    intros i x Hx.
    assert (Hfree' : ∀ n, n ∈ migration_index_names → i ≠ n).
    { intros n Hn ->. rewrite Forall_forall in Hfree. specialize (Hfree n Hn).
      apply is_relation_false in Hfree as [_ Hnone]. congruence. }
    rewrite !lookup_insert_ne; [exact Hx|..];
      apply not_eq_sym, Hfree'; unfold migration_index_names;
      repeat first [apply list_elem_of_here | apply list_elem_of_further].
  - intros Hnone. destruct (exec_all db0 migration_006) as [db|] eqn:Hm; [|reflexivity].
    destruct (migration_inversion db0 db Hfresh Hm) as ((users & Hu & _) & _). congruence.
  - intros i Hin Htaken.
    destruct (exec_all db0 migration_006) as [db|] eqn:Hm; [|reflexivity].
    destruct (migration_inversion db0 db Hfresh Hm) as (_ & Hfree & _).
    rewrite Forall_forall in Hfree. specialize (Hfree i Hin). congruence.
Qed.

End SchemaWrites.

Section SchemaRows.
Import Schema.
Context {D : Domains}.

(** Membership in a list that is written out. *)
Ltac in_list := repeat first [apply list_elem_of_here | apply list_elem_of_further].

(** A succeeding [insert] appends the row it builds; that row passes the
    column constraints and its key is new. *)
Lemma insert_succeeds env db t td given :
  tables db !! t = Some td →
  names_known (columns td) given = true →
  row_ok (columns td) (build_row env (columns td) given) = true →
  (∀ r', r' ∈ rows td →
     key_clash (columns td) r' (build_row env (columns td) given) = false) →
  exec_dml env db (insert_into t given)
  = Some (put_rows db t td (rows td ++ [build_row env (columns td) given])).
Proof.
  intros Ht Hn Hr Hk. cbn [exec_dml]. rewrite Ht. cbn [mbind option_bind].
  rewrite Hn, Hr. cbn [andb].
  replace (forallb _ (rows td)) with true; [reflexivity|].
  symmetry. apply forallb_forall. intros r' Hin. apply negb_true_iff, Hk.
  now apply list_elem_of_In.
Qed.

Lemma insert_fails env db t td given :
  tables db !! t = Some td →
  row_ok (columns td) (build_row env (columns td) given) = false →
  exec_dml env db (insert_into t given) = None.
Proof.
  intros Ht Hr. cbn [exec_dml]. rewrite Ht. cbn [mbind option_bind].
  rewrite Hr. now rewrite andb_false_r.
Qed.

Lemma jobs_columns_nodup : NoDup (col_name <$> ik_solver_jobs_columns).
Proof. apply (bool_decide_unpack _). vm_compute. exact I. Qed.

Lemma chains_columns_nodup : NoDup (col_name <$> kinematic_chains_columns).
Proof. apply (bool_decide_unpack _). vm_compute. exact I. Qed.

(** The key of both tables is [id]: a row with a generated [id] clashes
    with a stored row only when that row has the same [id]. *)
Lemma generated_key_is_new env cols given r' :
  cols = ik_solver_jobs_columns ∨ cols = kinematic_chains_columns →
  given !! "id" = None →
  r' !! "id" ≠ Some (VUuid (fresh_uuid env)) →
  key_clash cols r' (build_row env cols given) = false.
Proof.
  intros Hcols Hg Hne.
  assert (Hid : cell (build_row env cols given) "id" = VUuid (fresh_uuid env)).
  { unfold cell.
    pose (c := mkColumn "id" uuid true false (Some gen_random_uuid) None None).
    assert (Hl : build_row env cols given !! col_name c
                 = Some (default (default_value env c) (given !! col_name c))).
    { apply build_row_lookup.
      - destruct Hcols as [-> | ->]; [apply jobs_columns_nodup | apply chains_columns_nodup].
      - destruct Hcols as [-> | ->]; apply list_elem_of_here. }
    cbn [col_name c] in Hl. rewrite Hl, Hg. reflexivity. }
  assert (Hkey : key_clash cols r' (build_row env cols given)
                 = same_key (cell r' "id") (cell (build_row env cols given) "id")).
  { unfold key_clash. destruct Hcols as [-> | ->]; cbn; now rewrite orb_false_r. }
  rewrite Hkey, Hid. unfold cell.
  destruct (r' !! "id") as [[| u | | | | |]|]; try reflexivity.
  cbn. apply bool_decide_eq_false. intros ->. now apply Hne.
Qed.

(** A job can be inserted with nothing but its target, any [jsonb] value:
    the row gets a generated [id], [solver_type = 'ccd'],
    [status = 'pending'], the current time, and [NULL] in every other
    column. *)
Theorem jobs_insert_defaults env db rs j :
  tables db !! "public.ik_solver_jobs" = Some (mkTable ik_solver_jobs_columns rs) →
  (∀ r, r ∈ rs → r !! "id" ≠ Some (VUuid (fresh_uuid env))) →
  exec_dml env db (insert_into "public.ik_solver_jobs" {[ "target_position" := VJsonb j ]})
  = Some (put_rows db "public.ik_solver_jobs" (mkTable ik_solver_jobs_columns rs)
            (rs ++ [ list_to_map
                       [ ("id", VUuid (fresh_uuid env)); ("user_id", NULL);
                         ("chain_id", NULL); ("solver_type", VText "ccd");
                         ("target_position", VJsonb j); ("target_orientation", NULL);
                         ("status", VText "pending"); ("iterations", NULL);
                         ("residual_error", NULL); ("solution", NULL);
                         ("solve_time_ms", NULL);
                         ("created_at", VTimestamptz (current_time env)) ] ])).
Proof.
  intros Ht Hnew.
  rewrite (insert_succeeds env db _ _ _ Ht); [reflexivity | reflexivity | |].
  - vm_compute. reflexivity.
  - intros r' Hin. cbn [columns rows] in *.
    apply generated_key_is_new; [now left | reflexivity | now apply Hnew].
Qed.

(** A chain needs its [name], [joint_count] and [dof], any text and any two
    32-bit integers: the row gets [chain_type = 'serial'], [joints = '[]']
    and [end_effector_count = 1]; no relation between [joint_count] and
    [dof], and no sign, is required. *)
Theorem chains_insert_defaults env db rs name n d :
  tables db !! "public.kinematic_chains" = Some (mkTable kinematic_chains_columns rs) →
  (∀ r, r ∈ rs → r !! "id" ≠ Some (VUuid (fresh_uuid env))) →
  has_type (VText name) text = true →
  has_type (VInteger n) integer = true →
  has_type (VInteger d) integer = true →
  exec_dml env db
    (insert_into "public.kinematic_chains"
       {[ "name" := VText name; "joint_count" := VInteger n; "dof" := VInteger d ]})
  = Some (put_rows db "public.kinematic_chains" (mkTable kinematic_chains_columns rs)
            (rs ++ [ list_to_map
                       [ ("id", VUuid (fresh_uuid env)); ("user_id", NULL);
                         ("name", VText name); ("chain_type", VText "serial");
                         ("joint_count", VInteger n); ("dof", VInteger d);
                         ("joints", VJsonb empty_array); ("end_effector_count", VInteger 1);
                         ("workspace_volume", NULL);
                         ("created_at", VTimestamptz (current_time env)) ] ])).
Proof.
  intros Ht Hnew Hname Hn Hd.
  rewrite (insert_succeeds env db _ _ _ Ht); [reflexivity | reflexivity | |].
  - cbn [columns]. set (row := build_row env kinematic_chains_columns _).
    assert (Hcell : ∀ k v, row !! k = Some v → cell row k = v)
      by (intros k v Hk; unfold cell; now rewrite Hk).
    unfold row_ok, kinematic_chains_columns. cbn [forallb col_name col].
    rewrite (Hcell "id" (VUuid (fresh_uuid env))) by reflexivity.
    rewrite (Hcell "user_id" NULL) by reflexivity.
    rewrite (Hcell "name" (VText name)) by reflexivity.
    rewrite (Hcell "chain_type" (VText "serial")) by reflexivity.
    rewrite (Hcell "joint_count" (VInteger n)) by reflexivity.
    rewrite (Hcell "dof" (VInteger d)) by reflexivity.
    rewrite (Hcell "joints" (VJsonb empty_array)) by reflexivity.
    rewrite (Hcell "end_effector_count" (VInteger 1)) by reflexivity.
    rewrite (Hcell "workspace_volume" NULL) by reflexivity.
    rewrite (Hcell "created_at" (VTimestamptz (current_time env))) by reflexivity.
    unfold col_ok, check_passes. cbn [col_name col_type primary_key not_null check_in col].
    rewrite Hname, Hn, Hd. reflexivity.
  - intros r' Hin. cbn [columns rows] in *.
    apply generated_key_is_new; [now right | reflexivity | now apply Hnew].
Qed.

(** A required column left out or given as [NULL] makes the row invalid. *)
Lemma required_column_missing env cols given c :
  NoDup (col_name <$> cols) → c ∈ cols →
  not_null c = true → col_default c = None →
  given !! col_name c = None ∨ given !! col_name c = Some NULL →
  row_ok cols (build_row env cols given) = false.
Proof.
  intros Hnd Hc Hnn Hdef Hgiven.
  destruct (row_ok cols (build_row env cols given)) eqn:Hok; [|reflexivity].
  unfold row_ok in Hok. rewrite forallb_forall in Hok.
  specialize (Hok c (proj1 (list_elem_of_In _ _) Hc)).
  unfold col_ok, cell in Hok. rewrite (build_row_lookup env cols given c Hnd Hc) in Hok.
  unfold default_value in Hok. rewrite Hdef, Hnn in Hok.
  destruct Hgiven as [Hg | Hg]; rewrite Hg in Hok; simpl in Hok; discriminate Hok.
Qed.

(** An [insert] that omits [target_position] (in [ik_solver_jobs]) or one of
    [name], [joint_count] and [dof] (in [kinematic_chains]), or passes
    [NULL] for it, is rejected. *)
Theorem required_columns_enforced env db rs given :
  (tables db !! "public.ik_solver_jobs" = Some (mkTable ik_solver_jobs_columns rs) →
   given !! "target_position" = None ∨ given !! "target_position" = Some NULL →
   exec_dml env db (insert_into "public.ik_solver_jobs" given) = None)
  ∧ (∀ c, tables db !! "public.kinematic_chains"
          = Some (mkTable kinematic_chains_columns rs) →
       c ∈ ["name"; "joint_count"; "dof"] →
       given !! c = None ∨ given !! c = Some NULL →
       exec_dml env db (insert_into "public.kinematic_chains" given) = None).
Proof.
  split.
  - intros Ht Hg. apply (insert_fails env db _ _ _ Ht). cbn [columns].
    apply (required_column_missing env _ given
             (mkColumn "target_position" jsonb false true None None None));
      [apply jobs_columns_nodup | unfold ik_solver_jobs_columns; in_list
      | reflexivity | reflexivity | exact Hg].
  - intros c Ht Hc Hg. apply (insert_fails env db _ _ _ Ht). cbn [columns].
    assert (Hcases : c = "name" ∨ c = "joint_count" ∨ c = "dof").
    { rewrite !elem_of_cons, elem_of_nil in Hc. tauto. }
    destruct Hcases as [-> | [-> | ->]].
    + apply (required_column_missing env _ given
               (mkColumn "name" text false true None None None));
        [apply chains_columns_nodup | unfold kinematic_chains_columns; in_list
        | reflexivity | reflexivity | exact Hg].
    + apply (required_column_missing env _ given
               (mkColumn "joint_count" integer false true None None None));
        [apply chains_columns_nodup | unfold kinematic_chains_columns; in_list
        | reflexivity | reflexivity | exact Hg].
    + apply (required_column_missing env _ given
               (mkColumn "dof" integer false true None None None));
        [apply chains_columns_nodup | unfold kinematic_chains_columns; in_list
        | reflexivity | reflexivity | exact Hg].
Qed.

(** The cell an [insert] or an [update] writes for a column it names. *)
Lemma build_row_given env cols given c v :
  NoDup (col_name <$> cols) → c ∈ cols → given !! col_name c = Some v →
  build_row env cols given !! col_name c = Some v.
Proof. intros Hnd Hc Hg. rewrite (build_row_lookup env cols given c Hnd Hc), Hg. reflexivity. Qed.

Lemma update_row_assigned assignments where_ r k v :
  where_ r = true → assignments !! k = Some v →
  update_row assignments where_ r !! k = Some v.
Proof.
  intros Hw Ha. unfold update_row. rewrite Hw. now apply lookup_union_Some_l.
Qed.

Lemma update_fails env db t td assignments where_ r :
  tables db !! t = Some td → r ∈ rows td →
  row_ok (columns td) (update_row assignments where_ r) = false →
  exec_dml env db (update t assignments where_) = None.
Proof.
  intros Ht Hr Hbad. cbn [exec_dml]. rewrite Ht. cbn [mbind option_bind].
  destruct (forallb (row_ok (columns td)) (update_row assignments where_ <$> rows td))
    eqn:Hall; [|now rewrite andb_false_r].
  rewrite forallb_forall in Hall.
  rewrite Hall in Hbad; [discriminate Hbad|].
  apply list_elem_of_In, list_elem_of_fmap. now exists r.
Qed.

(** The checks are enforced on every write: an [insert] that names
    [solver_type] (or [chain_type]) with anything but one of the allowed
    texts, also [NULL], is rejected although the column has a default, and
    so is an [update] that would write such a value to a row. *)
Theorem type_checks_enforced_on_write env db rs v :
  (tables db !! "public.ik_solver_jobs" = Some (mkTable ik_solver_jobs_columns rs) →
   (∀ s, v = VText s → s ∉ ["ccd"; "fabrik"; "jacobian"; "analytical"; "hybrid"]) →
   (∀ given, given !! "solver_type" = Some v →
      exec_dml env db (insert_into "public.ik_solver_jobs" given) = None)
   ∧ (∀ assignments where_ r, assignments !! "solver_type" = Some v →
        r ∈ rs → where_ r = true →
        exec_dml env db (update "public.ik_solver_jobs" assignments where_) = None))
  ∧ (tables db !! "public.kinematic_chains" = Some (mkTable kinematic_chains_columns rs) →
     (∀ s, v = VText s → s ∉ ["serial"; "parallel"; "tree"; "closed_loop"]) →
     (∀ given, given !! "chain_type" = Some v →
        exec_dml env db (insert_into "public.kinematic_chains" given) = None)
     ∧ (∀ assignments where_ r, assignments !! "chain_type" = Some v →
          r ∈ rs → where_ r = true →
          exec_dml env db (update "public.kinematic_chains" assignments where_) = None)).
Proof.
  split; intros Ht Hbad.
  - assert (Hrow : ∀ r', r' !! "solver_type" = Some v →
                     row_ok ik_solver_jobs_columns r' = false).
    { intros r' Hr'. destruct (row_ok ik_solver_jobs_columns r') eqn:Hok; [|reflexivity].
      apply jobs_row_solver_type in Hok as (s & Hs & Hin).
      rewrite Hr' in Hs. injection Hs as ->. now destruct (Hbad s eq_refl). }
    split.
    + intros given Hg. apply (insert_fails env db _ _ _ Ht). cbn [columns]. apply Hrow.
      apply (build_row_given env _ given
               (mkColumn "solver_type" text false true (Some (literal (VText "ccd")))
                  (Some ["ccd"; "fabrik"; "jacobian"; "analytical"; "hybrid"]) None));
        [apply jobs_columns_nodup | unfold ik_solver_jobs_columns; in_list | exact Hg].
    + intros assignments where_ r Ha Hr Hw.
      apply (update_fails env db _ _ assignments where_ r Ht); [exact Hr|].
      cbn [columns]. apply Hrow. now apply update_row_assigned.
  - assert (Hrow : ∀ r', r' !! "chain_type" = Some v →
                     row_ok kinematic_chains_columns r' = false).
    { intros r' Hr'. destruct (row_ok kinematic_chains_columns r') eqn:Hok; [|reflexivity].
      apply chains_row_chain_type in Hok as (s & Hs & Hin).
      rewrite Hr' in Hs. injection Hs as ->. now destruct (Hbad s eq_refl). }
    split.
    + intros given Hg. apply (insert_fails env db _ _ _ Ht). cbn [columns]. apply Hrow.
      apply (build_row_given env _ given
               (mkColumn "chain_type" text false true (Some (literal (VText "serial")))
                  (Some ["serial"; "parallel"; "tree"; "closed_loop"]) None));
        [apply chains_columns_nodup | unfold kinematic_chains_columns; in_list | exact Hg].
    + intros assignments where_ r Ha Hr Hw.
      apply (update_fails env db _ _ assignments where_ r Ht); [exact Hr|].
      cbn [columns]. apply Hrow. now apply update_row_assigned.
Qed.

(** The [status] of a job is free text: unlike [solver_type] it has no
    check and may be [NULL]; a job can be inserted with any of them. *)
Theorem jobs_status_unconstrained env db rs j v :
  tables db !! "public.ik_solver_jobs" = Some (mkTable ik_solver_jobs_columns rs) →
  (∀ r, r ∈ rs → r !! "id" ≠ Some (VUuid (fresh_uuid env))) →
  has_type v text = true →
  ∃ r, exec_dml env db
         (insert_into "public.ik_solver_jobs"
            {[ "target_position" := VJsonb j; "status" := v ]})
       = Some (put_rows db "public.ik_solver_jobs" (mkTable ik_solver_jobs_columns rs)
                 (rs ++ [r]))
       ∧ r !! "status" = Some v
       ∧ r !! "solver_type" = Some (VText "ccd").
Proof.
  intros Ht Hnew Hv. eexists. split; [|split].
  - apply (insert_succeeds env db _ _ _ Ht); [reflexivity | |].
    + cbn [columns]. set (row := build_row env ik_solver_jobs_columns _).
      assert (Hcell : ∀ k w, row !! k = Some w → cell row k = w)
        by (intros k w Hk; unfold cell; now rewrite Hk).
      unfold row_ok, ik_solver_jobs_columns. cbn [forallb col_name col].
      rewrite (Hcell "id" (VUuid (fresh_uuid env))) by reflexivity.
      rewrite (Hcell "user_id" NULL) by reflexivity.
      rewrite (Hcell "chain_id" NULL) by reflexivity.
      rewrite (Hcell "solver_type" (VText "ccd")) by reflexivity.
      rewrite (Hcell "target_position" (VJsonb j)) by reflexivity.
      rewrite (Hcell "target_orientation" NULL) by reflexivity.
      rewrite (Hcell "status" v) by reflexivity.
      rewrite (Hcell "iterations" NULL) by reflexivity.
      rewrite (Hcell "residual_error" NULL) by reflexivity.
      rewrite (Hcell "solution" NULL) by reflexivity.
      rewrite (Hcell "solve_time_ms" NULL) by reflexivity.
      rewrite (Hcell "created_at" (VTimestamptz (current_time env))) by reflexivity.
      unfold col_ok, check_passes. cbn [col_name col_type primary_key not_null check_in col].
      rewrite Hv. reflexivity.
    + intros r' Hin. cbn [columns rows] in *.
      apply generated_key_is_new; [now left | reflexivity | now apply Hnew].
  - reflexivity.
  - reflexivity.
Qed.

End SchemaRows.

(** ** Instances *)

(** The migration on a database that holds [auth.users]. *)
Lemma migration_on_users :
  Schema.exec_all (D:=Schema.sample_domains) Schema.db_with_users Schema.migration_006
  = Some Schema.migrated_with_users.
Proof. vm_compute. reflexivity. Qed.

Lemma migration_effect_witness :
  Schema.is_relation (D:=Schema.sample_domains) Schema.db_with_users
    "public.idx_kinematic_chains_user" = false
  ∧ Schema.indexes (D:=Schema.sample_domains) Schema.migrated_with_users
      !! "public.idx_ik_solver_jobs_chain"
    = Some ("public.ik_solver_jobs", "chain_id").
Proof.
  destruct (proj1 (migration_effect (D:=Schema.sample_domains) Schema.db_with_users
                     (conj eq_refl eq_refl))
              Schema.migrated_with_users migration_on_users)
    as (_ & Hfree & _ & _ & Hchain & _).
  split; [|exact Hchain].
  apply Hfree. apply list_elem_of_here.
Defined.

Lemma migration_not_rerunnable_witness :
  Schema.exec_all (D:=Schema.sample_domains) Schema.migrated_with_users Schema.migration_006
  = None.
Proof.
  exact (proj1 (migration_not_rerunnable Schema.db_with_users Schema.migrated_with_users
                  migration_on_users)).
Defined.

(** A job with only its target, and a chain with only its required columns,
    inserted right after the migration. *)
Lemma jobs_insert_defaults_witness :
  let env := Schema.mkEnv (D:=Schema.sample_domains)
               "6f1c0a52-0000-4000-8000-000000000002" 1700000000%Z in
  ∃ db r, Schema.exec_dml env Schema.migrated_with_users
            (Schema.insert_into "public.ik_solver_jobs"
               {[ "target_position"
                  := Schema.VJsonb (D:=Schema.sample_domains) [1 # 2; 3 # 10; 1 # 5]%Q ]})
          = Some db
          ∧ Schema.tables db !! "public.ik_solver_jobs"
            = Some (Schema.mkTable Schema.ik_solver_jobs_columns [r])
          ∧ r !! "status" = Some (Schema.VText "pending")
          ∧ r !! "chain_id" = Some Schema.NULL.
Proof.
  intros env. eexists _, _. split.
  - apply (jobs_insert_defaults (D:=Schema.sample_domains) env Schema.migrated_with_users []
             [1 # 2; 3 # 10; 1 # 5]%Q).
    + reflexivity.
    + intros r Hr. inversion Hr.
  - split; [reflexivity|]. split; reflexivity.
Defined.

Lemma chains_insert_defaults_witness :
  let env := Schema.mkEnv (D:=Schema.sample_domains)
               "6f1c0a52-0000-4000-8000-000000000003" 1700000000%Z in
  ∃ db r, Schema.exec_dml env Schema.migrated_with_users
            (Schema.insert_into "public.kinematic_chains"
               {[ "name" := Schema.VText "arm"; "joint_count" := Schema.VInteger 7;
                  "dof" := Schema.VInteger (-3) ]}) = Some db
          ∧ Schema.tables db !! "public.kinematic_chains"
            = Some (Schema.mkTable Schema.kinematic_chains_columns [r])
          ∧ r !! "chain_type" = Some (Schema.VText "serial")
          ∧ r !! "dof" = Some (Schema.VInteger (-3)).
Proof.
  intros env. eexists _, _. split.
  - apply (chains_insert_defaults (D:=Schema.sample_domains) env
             Schema.migrated_with_users [] "arm" 7 (-3)).
    + reflexivity.
    + intros r Hr. inversion Hr.
    + reflexivity.
    + reflexivity.
    + reflexivity.
  - split; [reflexivity|]. split; reflexivity.
Defined.

Lemma jobs_status_unconstrained_witness :
  let env := Schema.mkEnv (D:=Schema.sample_domains)
               "6f1c0a52-0000-4000-8000-000000000004" 1700000000%Z in
  ∃ (r : gmap string (@Schema.SqlValue Schema.sample_domains)) db,
    Schema.exec_dml env Schema.migrated_with_users
            (Schema.insert_into "public.ik_solver_jobs"
               {[ "target_position"
                  := Schema.VJsonb (D:=Schema.sample_domains) [1; 0; 0]%Q;
                  "status" := Schema.VText "no such status" ]}) = Some db
          ∧ r !! "status" = Some (Schema.VText "no such status").
Proof.
  intros env.
  destruct (jobs_status_unconstrained (D:=Schema.sample_domains) env
              Schema.migrated_with_users [] [1; 0; 0]%Q (Schema.VText "no such status")
              eq_refl) as (r & Hexec & Hstatus & _).
  - intros r Hr. inversion Hr.
  - reflexivity.
  - exists r. eexists. split; [exact Hexec | exact Hstatus].
Defined.

(** The IK request is in flight when the user moves to the FK tab; the
    network then fails. *)
Lemma console_late_response_is_stored_witness :
  let step := Page.step (float:=Q) id (λ n, inject_Z (Z.of_nat n)) Qmult id id (λ _, 0%Q)
                (λ _, "{}") (λ _, None) (λ _, "Unexpected token") None in
  let w := step Page.start (Page.Click Page.SolveIk) in
  let w' := step (step w (Page.ClickTab Page.fk))
              (Page.Settle (Rejected (TypeError "Failed to fetch"))) in
  Page.tab (Page.ui w') = Page.fk
  ∧ Page.result (Page.ui w') = Js.JObject [("error", Js.JString "Failed to fetch")]
  ∧ Page.loading (Page.ui w') = false.
Proof.
  intros step w w'.
  destruct (console_late_response_is_stored (float:=Q) id (λ n, inject_Z (Z.of_nat n))
              Qmult id id (λ _, 0%Q) (λ _, "{}") (λ _, None) (λ _, "Unexpected token")
              None w Page.fk
              (Rejected (TypeError "Failed to fetch")))
    as (Htab & _ & Hres & Hload & _).
  - discriminate.
  - split; [exact Htab|]. split; [exact Hres | exact Hload].
Defined.
